(** * advect.cpp: advection of a staggered velocity field and a concentration field

    Shallow embedding of [trunk/src/advect.cpp].

    Numbers.  A C [double] (and the [float] parameter [dt] of [maccormack]
    and [semiLagrangian]) is a rational number of [Q] and every arithmetic
    operation is exact: rounding, overflow, infinities and NaN are outside
    this development.  Results are therefore compared with [==] ([Qeq]).
    A C [int] is an integer of [Z]; the grids are far from the 32-bit range.

    Memory.  A [double **] is a grid: a total function from two indices to a
    value, with its extent kept aside as the code does.  A read outside the
    allocated extent, undefined in C, is simply some value here.  A
    [double ***] or an array of grids is a function from its index to a
    grid.  The [static] scratch buffers come from [alloc2D] and hold zeros
    when a call starts: every cell inside a field's extent is written by a
    call before that call reads it, and the cells outside are never written.
    With [n] = 1, [linear_interpolate] reads index -1 of the scratch buffer
    [up]: the zero of this model stands there for a value that C leaves
    undefined, and a property that needs that value asks for [n] >= 2.

    State.  The file-level globals [gu], [gc], [gn], [gcn] and
    [interp_func] are the record [Globals], passed to and returned from the
    functions that read or assign them. *)

From Stdlib Require Import ZArith QArith Qabs Qround List Bool Lia Lra Psatz.
Import ListNotations.

Local Open Scope Z_scope.
Local Open Scope Q_scope.

(** ** Scalars *)

(** [a > b] and [a < b] on doubles, as C booleans. *)
Definition Qgtb (a b : Q) : bool := negb (Qle_bool a b).
Definition Qltb (a b : Q) : bool := Qgtb b a.

(** A C boolean used as a factor: [(u>0)*e]. *)
Definition b2q (b : bool) : Q := if b then 1 else 0.

(** [utility.h] is not among the sources.  Its [min] and [max] are taken with
    their usual meaning, written as the conditional expression such a macro
    expands to, once for two integers and once for two doubles (an integer
    operand of a mixed call is converted with [inject_Z] at the call). *)
Definition imax (a b : Z) : Z := if (a >? b)%Z then a else b.
Definition imin (a b : Z) : Z := if (a >? b)%Z then b else a.
Definition fmax (a b : Q) : Q := if Qgtb a b then a else b.
Definition fmin (a b : Q) : Q := if Qgtb a b then b else a.

(** [(int)x]: conversion of a double to int truncates toward zero. *)
Definition trunc (x : Q) : Z := Z.quot (Qnum x) (Zpos (Qden x)).

Definition square (x : Q) : Q := x * x.

(** ** Arrays and grids *)

(** A local array [double a[N]]. *)
Definition Arr := Z -> Q.
Definition astore (a : Arr) (k : Z) (v : Q) : Arr :=
  fun k' => if (k' =? k)%Z then v else a k'.
(** The content of a local array before it is assigned. *)
Definition uninit : Arr := fun _ => 0.

(** A [double **]. *)
Definition Grid := Z -> Z -> Q.
(** [d[i][j] = v] *)
Definition store (d : Grid) (i j : Z) (v : Q) : Grid :=
  fun i' j' => if ((i' =? i) && (j' =? j))%Z%bool then v else d i' j'.

(** A [double ***], or an array of grids such as [double **out[3]]. *)
Definition Field := Z -> Grid.
(** [f[k][i][j] = v] *)
Definition fstore (f : Field) (k i j : Z) (v : Q) : Field :=
  fun k' => if (k' =? k)%Z then store (f k) i j v else f k'.
(** [f[k] = g], for an array of grids built in place. *)
Definition fset (f : Field) (k : Z) (g : Grid) : Field :=
  fun k' => if (k' =? k)%Z then g else f k'.

(** Modelled from the spec: [alloc2D] of [utility.h], which is not among the
    sources ("allocate a zeroed 2D array"). *)
Definition alloc2D (n : Z) : Grid := fun _ _ => 0.

(** [0 <= i < w] and [0 <= j < h]. *)
Definition in_rect (w h i j : Z) : bool :=
  ((0 <=? i) && (i <? w) && (0 <=? j) && (j <? h))%Z%bool.

(** Modelled from the spec: [op2D] of [utility.h], which is not among the
    sources ("compute out = a*src0 + b*src1 elementwise"), over the
    [n] x [n] cells of a grid from [alloc2D(n)].  The sources are read at the
    cell that is written, so a destination that is also a source is taken
    at its value before the call. *)
Definition op2D (dest src0 src1 : Grid) (a b : Q) (n : Z) : Grid :=
  fun i j => if in_rect n n i j then a * src0 i j + b * src1 i j else dest i j.

(** Modelled from the spec: [copy2D] of [utility.h], which is not among the
    sources ("copy one array into another"), over [n] x [n] cells. *)
Definition copy2D (dest src : Grid) (n : Z) : Grid :=
  fun i j => if in_rect n n i j then src i j else dest i j.

(** ** Loops *)

(** [0, 1, ..., m-1] *)
Definition zrange (m : Z) : list Z := map Z.of_nat (seq 0 (Z.to_nat m)).

(** [for( int n=0; n<w*h; n++ ) { int i = n%w; int j = n/w; body }]
    over a state [S] that the body updates. *)
Definition for_cells {S : Type} (w h : Z) (body : Z -> Z -> S -> S) (s : S) : S :=
  fold_left (fun s n => body (Z.rem n w) (Z.quot n w) s) (zrange (w * h)) s.

(** Modelled from the spec: the loop macros of [utility.h], which is not among
    the sources, over the extents the spec gives the fields: the x-component
    of the velocity is [(n+1)] x [n], the y-component [n] x [(n+1)], a
    cell-centred grid [n] x [n].  Each visits its cells like the loops of
    [maccormack] and [semiLagrangian], [i] fastest. *)
Definition FOR_EVERY_X_FLOW {S : Type} (n : Z) := @for_cells S (n + 1) n.
Definition FOR_EVERY_Y_FLOW {S : Type} (n : Z) := @for_cells S n (n + 1).
Definition FOR_EVERY_CELL {S : Type} (n : Z) := @for_cells S n n.

(** ** Interpolation kernels *)

Definition monotonic_cubic_4 (a : Arr) (x : Q) : Q :=
  let d0 := a 1%Z - a 0%Z in
  let d1 := a 2%Z - a 1%Z in
  let d2 := a 3%Z - a 2%Z in
  let '(d0, d2) :=
    if Qeq_bool d1 0 then (0, 0)
    else
      let p := if Qgtb d1 0 then 1 else - (1) in
      (p * Qabs d0, p * Qabs d2) in
  let a3 := d2 + d0 in
  let a2 := - d2 - 2 * d0 in
  let a1 := d1 + d0 in
  let a0 := a 1%Z in
  let y := a3 * x * x * x + a2 * x * x + a1 * x + a0 in
  y.

(** The two gather loops shared by [monotonic_cubic] and
    [spline_interpolate]: [f[4*j+i] = d[min(width-1,max(0,h))][min(height-1,max(0,v))]]. *)
Definition gather (d : Grid) (width height : Z) (x y : Q) : Arr :=
  fold_left (fun f j =>
    fold_left (fun f i =>
      let h := (trunc x - 1 + i)%Z in
      let v := (trunc y - 1 + j)%Z in
      astore f (4 * j + i)
        (d (imin (width - 1) (imax 0 h)) (imin (height - 1) (imax 0 v))))
      [0; 1; 2; 3]%Z f)
    [0; 1; 2; 3]%Z uninit.

(** [&f[4*j]] *)
Definition row (f : Arr) (j : Z) : Arr := fun k => f (4 * j + k)%Z.

Definition monotonic_cubic (d : Grid) (width height : Z) (x y : Q) : Q :=
  let x := fmax 0 (fmin (inject_Z width) x) in
  let y := fmax 0 (fmin (inject_Z height) y) in
  let f := gather d width height x y in
  let xn := fold_left (fun xn j =>
      astore xn j (monotonic_cubic_4 (row f j) (x - inject_Z (trunc x))))
      [0; 1; 2; 3]%Z uninit in
  monotonic_cubic_4 xn (y - inject_Z (trunc y)).

Definition spline_cubic (a : Arr) (x : Q) : Q :=
  let alpha := fold_left (fun alpha i =>
      astore alpha i (3 * (a (i + 1)%Z - a i) - 3 * (a i - a (i - 1)%Z)))
      [1; 2]%Z uninit in
  let l := astore uninit 0 1 in
  let mu := astore uninit 0 0 in
  let z := astore uninit 0 0 in
  let '(l, mu, z) := fold_left (fun '(l, mu, z) i =>
      let l := astore l i (4 - mu (i - 1)%Z) in
      let mu := astore mu i (1 / l i) in
      let z := astore z i ((alpha i - z (i - 1)%Z) / l i) in
      (l, mu, z))
      [1; 2]%Z (l, mu, z) in
  let l := astore l 3 1 in
  let z := astore z 3 0 in
  let c := astore uninit 3 0 in
  let '(c, b, d) := fold_left (fun '(c, b, d) j =>
      let c := astore c j (z j - mu j * c (j + 1)%Z) in
      let b := astore b j (a (j + 1)%Z - a j - (c (j + 1)%Z + 2 * c j) / 3) in
      let d := astore d j ((c (j + 1)%Z - c j) / 3) in
      (c, b, d))
      [2; 1; 0]%Z (c, uninit, uninit) in
  let minv := fmin (a 1%Z) (a 2%Z) in
  let maxv := fmax (a 2%Z) (a 1%Z) in
  fmin maxv (fmax minv
    (a 1%Z + b 1%Z * x + c 1%Z * x * x + d 1%Z * x * x * x)).

Definition spline_interpolate (d : Grid) (width height : Z) (x y : Q) : Q :=
  let x := fmax 0 (fmin (inject_Z width) x) in
  let y := fmax 0 (fmin (inject_Z height) y) in
  let f := gather d width height x y in
  let xn := fold_left (fun xn j =>
      astore xn j (spline_cubic (row f j) (x - inject_Z (trunc x))))
      [0; 1; 2; 3]%Z uninit in
  spline_cubic xn (y - inject_Z (trunc y)).

Definition linear_interpolate (d : Grid) (width height : Z) (x y : Q) : Q :=
  let x := fmax 0 (fmin (inject_Z width) x) in
  let y := fmax 0 (fmin (inject_Z height) y) in
  let i := trunc (fmin x (inject_Z (width - 2))) in
  let j := trunc (fmin y (inject_Z (height - 2))) in
  ((inject_Z (i + 1) - x) * d i j + (x - inject_Z i) * d (i + 1)%Z j)
    * (inject_Z (j + 1) - y)
  + ((inject_Z (i + 1) - x) * d i (j + 1)%Z
      + (x - inject_Z i) * d (i + 1)%Z (j + 1)%Z)
    * (y - inject_Z j).

(** ** Spatial schemes *)

(** WENO5 Advection *)
Definition weno5calc (v1 v2 v3 v4 v5 : Q) : Q :=
  let e := 1.0e-6 in
  let r1 := 13 * square (v1 - 2 * v2 + v3) / 12 + square (v1 - 4 * v2 + 3 * v3) / 4 in
  let r2 := 13 * square (v2 - 2 * v3 + v4) / 12 + square (v2 - v4) / 4 in
  let r3 := 13 * square (v3 - 2 * v4 + v5) / 12 + square (3 * v3 - 4 * v4 + v5) / 4 in
  let w1 := 0.1 / square (e + r1) in
  let w2 := 0.6 / square (e + r2) in
  let w3 := 0.3 / square (e + r3) in
  let s := w1 + w2 + w3 in
  let w1 := w1 / s in
  let w2 := w2 / s in
  let w3 := w3 / s in
  (w1 * (2 * v1 - 7 * v2 + 11 * v3) + w2 * (- v2 + 5 * v3 + 2 * v4)
   + w3 * (2 * v3 + 5 * v4 - v5)) / 6.

Definition weno5 (u d0 d1 d2 d3 d4 d5 d6 : Q) : Q :=
  - u * (b2q (Qgtb u 0) * weno5calc (d1 - d0) (d2 - d1) (d3 - d2) (d4 - d3) (d5 - d4)
         + b2q (Qltb u 0) * weno5calc (d6 - d5) (d5 - d4) (d4 - d3) (d3 - d2) (d2 - d1)).

Definition QUICK (u d0 d1 d2 d3 d4 : Q) : Q :=
  let center := 0.5 * (d3 - d1) in
  - u * (center + b2q (Qgtb u 0) * (d4 - 3 * d3 + 3 * d2 - d1) / 8
         + b2q (Qltb u 0) * (d3 - 3 * d2 + 3 * d1 - d0) / 8).

(** ** Globals and the field samplers *)

Definition Kernel := Grid -> Z -> Z -> Q -> Q -> Q.

Record Globals := mkGlobals {
  gu : Field;
  gc : Grid;
  gn : Z;
  gcn : Z;
  interp_func : Kernel
}.

(** [interp_func = f] *)
Definition set_interp_func (g : Globals) (f : Kernel) : Globals :=
  mkGlobals (gu g) (gc g) (gn g) (gcn g) f.

(** Clamped Fluid Flow Fetch *)
Definition u_ref (g : Globals) (dir i j : Z) : Q :=
  if (dir =? 0)%Z
  then gu g 0%Z (imax 0 (imin (gn g) i)) (imax 0 (imin (gn g - 1) j))
  else gu g 1%Z (imax 0 (imin (gn g - 1) i)) (imax 0 (imin (gn g) j)).

(** Clamped Concentration Fetch *)
Definition c_ref (g : Globals) (i j : Z) : Q :=
  if ((i <? 0) || (i >? gcn g - 1) || (j <? 0) || (j >? gcn g - 1))%Z%bool
  then 0
  else gc g i j.

(** ** Eulerian advection *)

(** 1D Derivative Advection *)
Definition advdiff (method : Z) (u d0 d1 d2 d3 d4 d5 d6 : Q) : Q :=
  let dd := 0 in
  if (method =? 0)%Z then
    - u * (b2q (Qgtb u 0) * (d3 - d2) + b2q (Qltb u 0) * (d4 - d3))
  else if (method =? 1)%Z then
    weno5 u d0 d1 d2 d3 d4 d5 d6
  else if (method =? 2)%Z then
    QUICK u d1 d2 d3 d4 d5
  else dd.

(** The velocity at the centres of the [n] x [n] cells, in the static buffers
    [up[0]] and [up[1]]: the loop that [advect_diff] and
    [advect_semiLagrangian] both run. *)
Definition cell_velocity (u : Field) (n : Z) : Field :=
  let up : Field := fun _ => alloc2D n in
  FOR_EVERY_CELL n (fun i j up =>
    let up := fstore up 0 i j (0.5 * u 0%Z i j + 0.5 * u 0%Z (i + 1)%Z j) in
    let up := fstore up 1 i j (0.5 * u 1%Z i j + 0.5 * u 1%Z i (j + 1)%Z) in
    up) up.

(** 2D Derivative Advection *)
Definition advect_diff (g : Globals) (method : Z) (u : Field) (c : Grid)
    (n cn : Z) (out : Field) (dt : Q) : Field :=
  (* Advect X Flow *)
  let out := FOR_EVERY_X_FLOW n (fun i j out =>
    let v0 := u 0%Z i j in
    let v1 := (u_ref g 1 (i - 1) j + u_ref g 1 i j
               + u_ref g 1 (i - 1) (j + 1) + u_ref g 1 i (j + 1)) / 4 in
    let out := fstore out 0 i j 0 in
    (* X Direction *)
    let out := fstore out 0 i j (out 0%Z i j +
      advdiff method v0 (u_ref g 0 (i - 3) j) (u_ref g 0 (i - 2) j)
        (u_ref g 0 (i - 1) j) (u_ref g 0 i j) (u_ref g 0 (i + 1) j)
        (u_ref g 0 (i + 2) j) (u_ref g 0 (i + 3) j) * inject_Z n) in
    (* Y Direction *)
    let out := fstore out 0 i j (out 0%Z i j +
      advdiff method v1 (u_ref g 0 i (j - 3)) (u_ref g 0 i (j - 2))
        (u_ref g 0 i (j - 1)) (u_ref g 0 i j) (u_ref g 0 i (j + 1))
        (u_ref g 0 i (j + 2)) (u_ref g 0 i (j + 3)) * inject_Z n) in
    out) out in
  (* Advect Y Flow *)
  let out := FOR_EVERY_Y_FLOW n (fun i j out =>
    let v0 := (u_ref g 0 i (j - 1) + u_ref g 0 i j
               + u_ref g 0 (i + 1) j + u_ref g 0 (i + 1) (j - 1)) / 4 in
    let v1 := u 1%Z i j in
    let out := fstore out 1 i j 0 in
    (* X Direction *)
    let out := fstore out 1 i j (out 1%Z i j +
      advdiff method v0 (u_ref g 1 (i - 3) j) (u_ref g 1 (i - 2) j)
        (u_ref g 1 (i - 1) j) (u_ref g 1 i j) (u_ref g 1 (i + 1) j)
        (u_ref g 1 (i + 2) j) (u_ref g 1 (i + 3) j) * inject_Z n) in
    (* Y Direction *)
    let out := fstore out 1 i j (out 1%Z i j +
      advdiff method v1 (u_ref g 1 i (j - 3)) (u_ref g 1 i (j - 2))
        (u_ref g 1 i (j - 1)) (u_ref g 1 i j) (u_ref g 1 i (j + 1))
        (u_ref g 1 i (j + 2)) (u_ref g 1 i (j + 3)) * inject_Z n) in
    out) out in
  (* Advect Concentration *)
  let up := cell_velocity u n in
  let out := FOR_EVERY_CELL cn (fun i j out =>
    let x := inject_Z (i * n) / inject_Z cn in
    let y := inject_Z (j * n) / inject_Z cn in
    let v0 := linear_interpolate (up 0%Z) n n x y in
    let v1 := linear_interpolate (up 1%Z) n n x y in
    let out := fstore out 2 i j 0 in
    (* X Direction *)
    let out := fstore out 2 i j (out 2%Z i j +
      advdiff method v0 (c_ref g (i - 3) j) (c_ref g (i - 2) j)
        (c_ref g (i - 1) j) (c_ref g i j) (c_ref g (i + 1) j)
        (c_ref g (i + 2) j) (c_ref g (i + 3) j) * inject_Z cn) in
    (* Y Direction *)
    let out := fstore out 2 i j (out 2%Z i j +
      advdiff method v1 (c_ref g i (j - 3)) (c_ref g i (j - 2))
        (c_ref g i (j - 1)) (c_ref g i j) (c_ref g i (j + 1))
        (c_ref g i (j + 2)) (c_ref g i (j + 3)) * inject_Z cn) in
    out) out in
  out.

(** ** Semi-Lagrangian advection *)

(** The initial backward-traced point of cell [(i,j)] in [maccormack]. *)
Definition trace_x (g : Globals) (width : Z) (u : Field) (dt : Q) (i j : Z) : Q :=
  fmin (inject_Z (width - 1)) (fmax 0 (inject_Z i - dt * inject_Z (gn g) * u 0%Z i j)).
Definition trace_y (g : Globals) (height : Z) (u : Field) (dt : Q) (i j : Z) : Q :=
  fmin (inject_Z (height - 1)) (fmax 0 (inject_Z j - dt * inject_Z (gn g) * u 1%Z i j)).

(** The lower corner of the grid cell that holds the traced point. *)
Definition corner (extent : Z) (x : Q) : Z := imin (extent - 2) (imax 0 (trunc x)).

(** The value that the body of the loop of [maccormack] assigns to [d[i][j]]. *)
Definition maccormack_value (g : Globals) (d0 : Grid) (width height : Z)
    (u : Field) (dt : Q) (i j : Z) : Q :=
  let x := trace_x g width u dt i j in
  let y := trace_y g height u dt i j in
  let i0 := corner width x in
  let j0 := corner height y in
  let i1 := (i0 + 1)%Z in
  let j1 := (j0 + 1)%Z in
  let phi_n_1_hat := interp_func g d0 width height x y in
  let u_hat := interp_func g (u 0%Z) width height x y in
  let v_hat := interp_func g (u 1%Z) width height x y in
  let x := x + dt * inject_Z (gn g) * u_hat in
  let y := y + dt * inject_Z (gn g) * v_hat in
  let phi_n_hat := interp_func g d0 width height x y in
  let min_phi := fmin (fmin (fmin (d0 i0 j0) (d0 i1 j0)) (d0 i0 j1)) (d0 i1 j1) in
  let max_phi := fmax (fmax (fmax (d0 i0 j0) (d0 i1 j0)) (d0 i0 j1)) (d0 i1 j1) in
  let r := phi_n_1_hat + 0.5 * (d0 i j - phi_n_hat) in
  fmax (fmin r max_phi) min_phi.

Definition maccormack (g : Globals) (d d0 : Grid) (width height : Z)
    (u : Field) (dt : Q) : Grid :=
  for_cells width height (fun i j d =>
    store d i j (maccormack_value g d0 width height u dt i j)) d.

Definition semiLagrangian (g : Globals) (d d0 : Grid) (width height : Z)
    (u : Field) (dt : Q) : Grid :=
  for_cells width height (fun i j d =>
    store d i j
      (interp_func g d0 width height
         (inject_Z i - inject_Z (gn g) * u 0%Z i j * dt)
         (inject_Z j - inject_Z (gn g) * u 1%Z i j * dt))) d.

(** "Compute Fluid Velocity At Each Staggered Faces And Concentration Cell
    Centers": the loops of [advect_semiLagrangian] that fill its static
    buffers [ux], [uy] and [uc], each under the name of its buffer. *)
Definition face_velocity_x (g : Globals) (u : Field) (n : Z) : Field :=
  let ux : Field := fun _ => alloc2D (n + 1) in
  FOR_EVERY_X_FLOW n (fun i j ux =>
    let ux := fstore ux 0 i j (u 0%Z i j) in
    let ux := fstore ux 1 i j
      ((u_ref g 1 (i - 1) j + u_ref g 1 i j
        + u_ref g 1 (i - 1) (j + 1) + u_ref g 1 i (j + 1)) / 4) in
    ux) ux.

Definition face_velocity_y (g : Globals) (u : Field) (n : Z) : Field :=
  let uy : Field := fun _ => alloc2D (n + 1) in
  FOR_EVERY_Y_FLOW n (fun i j uy =>
    let uy := fstore uy 0 i j
      ((u_ref g 0 i (j - 1) + u_ref g 0 i j
        + u_ref g 0 (i + 1) j + u_ref g 0 (i + 1) (j - 1)) / 4) in
    let uy := fstore uy 1 i j (u 1%Z i j) in
    uy) uy.

Definition concentration_velocity (g : Globals) (up : Field) (n cn : Z) : Field :=
  let uc : Field := fun _ => alloc2D cn in
  FOR_EVERY_CELL cn (fun i j uc =>
    let x := inject_Z (i * n) / inject_Z cn in
    let y := inject_Z (j * n) / inject_Z cn in
    let uc := fstore uc 0 i j (interp_func g (up 0%Z) n n x y) in
    let uc := fstore uc 1 i j (interp_func g (up 1%Z) n n x y) in
    uc) uc.

(** Semi-Lagrangian Advection Method.  It may assign [interp_func], so it
    returns the globals with its output. *)
Definition advect_semiLagrangian (g : Globals) (method : Z) (u : Field) (c : Grid)
    (n cn : Z) (out : Field) (dt : Q) : Globals * Field :=
  (* BackTrace Order *)
  let order := 1%Z in
  (* Set Strategy *)
  let '(order, g) :=
    if (method =? 3)%Z then (1%Z, g)
    else if (method =? 4)%Z then (2%Z, set_interp_func g spline_interpolate)
    else (order, g) in
  (* Compute Fluid Velocity At Each Staggered Faces And Concentration Cell Centers *)
  let ux := face_velocity_x g u n in
  let uy := face_velocity_y g u n in
  let up := cell_velocity u n in
  let uc := concentration_velocity g up n cn in
  let out :=
    if (order =? 1)%Z then
      (* 1st Order Semi Advection *)
      let out := fset out 0 (semiLagrangian g (out 0%Z) (u 0%Z) (n + 1) n ux dt) in
      let out := fset out 1 (semiLagrangian g (out 1%Z) (u 1%Z) n (n + 1) uy dt) in
      let out := fset out 2 (semiLagrangian g (out 2%Z) c cn cn uc dt) in
      out
    else if (order =? 2)%Z then
      (* 2nd Order MacCormack Method *)
      let out := fset out 0 (maccormack g (out 0%Z) (u 0%Z) (n + 1) n ux dt) in
      let out := fset out 1 (maccormack g (out 1%Z) (u 1%Z) n (n + 1) uy dt) in
      let out := fset out 2 (maccormack g (out 2%Z) c cn cn uc dt) in
      out
    else out in
  (g, out).

Definition advect_step (g : Globals) (method : Z) (u : Field) (c : Grid)
    (n cn : Z) (out : Field) (dt : Q) : Globals * Field :=
  if (method <? 3)%Z
  then (g, advect_diff g method u c n cn out dt)
  else advect_semiLagrangian g method u c n cn out dt.

(** ** One timestep *)

(** One evaluation of [advect_step] as [advect] makes it: the state it is
    given and the stage result it leaves in [k[kn]].  [advect] below returns
    the list of its evaluations, in order, next to the fields; the list is
    not part of the program's state. *)
Record Stage := mkStage {
  stage_u : Field;
  stage_c : Grid;
  stage_k : Field
}.

Definition advect_trace (method interp integrator : Z) (u : Field) (c : Grid)
    (n cn : Z) (dt : Q) : (Field * Grid) * list Stage :=
  (* gu = u; gc = c; gn = n; gcn = cn; and "Set Interpolation Method" *)
  let g := mkGlobals u c n cn
    (if (interp =? 0)%Z then linear_interpolate
     else if (interp =? 1)%Z then spline_interpolate
     else monotonic_cubic) in
  (* Memory Allocation *)
  let k : Z -> Field := fun kn => fun m =>
    if (m =? 2)%Z then alloc2D cn else alloc2D (n + 1) in
  let tmp : Field := fun m =>
    if (m =? 2)%Z then alloc2D cn else alloc2D (n + 1) in
  if (method <? 3)%Z then
    if (integrator =? 0)%Z then
      (* Forward Euler Method *)
      let '(g, k0) := advect_step g method u c n cn (k 0%Z) dt in
      let s0 := mkStage u c k0 in
      let u := fset u 0 (op2D (u 0%Z) (u 0%Z) (k0 0%Z) 1 dt (n + 1)) in
      let u := fset u 1 (op2D (u 1%Z) (u 1%Z) (k0 1%Z) 1 dt (n + 1)) in
      let c := op2D c c (k0 2%Z) 1 dt cn in
      ((u, c), [s0])
    else if (integrator =? 1)%Z then
      (* Modified Euler Method *)
      (* k0 = f'(x) *)
      let '(g, k0) := advect_step g method u c n cn (k 0%Z) dt in
      let s0 := mkStage u c k0 in
      (* k1 = f'(x + k0*dt) *)
      let tmp := fset tmp 0 (op2D (tmp 0%Z) (u 0%Z) (k0 0%Z) 1 dt (n + 1)) in
      let tmp := fset tmp 1 (op2D (tmp 1%Z) (u 1%Z) (k0 1%Z) 1 dt (n + 1)) in
      let tmp := fset tmp 2 (op2D (tmp 2%Z) c (k0 2%Z) 0.5 dt cn) in
      let '(g, k1) := advect_step g method tmp (tmp 2%Z) n cn (k 1%Z) dt in
      let s1 := mkStage tmp (tmp 2%Z) k1 in
      (* y = x + 0.5*dt*(k0+k1) *)
      let u := fset u 0 (op2D (u 0%Z) (u 0%Z) (k0 0%Z) 1 (0.5 * dt) (n + 1)) in
      let u := fset u 1 (op2D (u 1%Z) (u 1%Z) (k0 1%Z) 1 (0.5 * dt) (n + 1)) in
      let c := op2D c c (k0 2%Z) 1 (0.5 * dt) cn in
      let u := fset u 0 (op2D (u 0%Z) (u 0%Z) (k1 0%Z) 1 (0.5 * dt) (n + 1)) in
      let u := fset u 1 (op2D (u 1%Z) (u 1%Z) (k1 1%Z) 1 (0.5 * dt) (n + 1)) in
      let c := op2D c c (k1 2%Z) 1 (0.5 * dt) cn in
      ((u, c), [s0; s1])
    else if (integrator =? 2)%Z then
      (* Runge-Kutta Method *)
      (* k0 = f'(x) *)
      let '(g, k0) := advect_step g method u c n cn (k 0%Z) dt in
      let s0 := mkStage u c k0 in
      (* k1 = f'(x + 0.5*k0*dt) *)
      let tmp := fset tmp 0 (op2D (tmp 0%Z) (u 0%Z) (k0 0%Z) 1 (0.5 * dt) (n + 1)) in
      let tmp := fset tmp 1 (op2D (tmp 1%Z) (u 1%Z) (k0 1%Z) 1 (0.5 * dt) (n + 1)) in
      let tmp := fset tmp 2 (op2D (tmp 2%Z) c (k0 2%Z) 0.5 (0.5 * dt) cn) in
      let '(g, k1) := advect_step g method tmp (tmp 2%Z) n cn (k 1%Z) dt in
      let s1 := mkStage tmp (tmp 2%Z) k1 in
      (* k2 = f'(x + 0.5*k1*dt) *)
      let tmp := fset tmp 0 (op2D (tmp 0%Z) (u 0%Z) (k1 0%Z) 1 (0.5 * dt) (n + 1)) in
      let tmp := fset tmp 1 (op2D (tmp 1%Z) (u 1%Z) (k1 1%Z) 1 (0.5 * dt) (n + 1)) in
      let tmp := fset tmp 2 (op2D (tmp 2%Z) c (k1 2%Z) 0.5 (0.5 * dt) cn) in
      let '(g, k2) := advect_step g method tmp (tmp 2%Z) n cn (k 2%Z) dt in
      let s2 := mkStage tmp (tmp 2%Z) k2 in
      (* k3 = f'(x + 0.5*k2*dt) *)
      let tmp := fset tmp 0 (op2D (tmp 0%Z) (u 0%Z) (k2 0%Z) 1 dt (n + 1)) in
      let tmp := fset tmp 1 (op2D (tmp 1%Z) (u 1%Z) (k2 1%Z) 1 dt (n + 1)) in
      let tmp := fset tmp 2 (op2D (tmp 2%Z) c (k2 2%Z) 0.5 dt cn) in
      let '(g, k3) := advect_step g method tmp (tmp 2%Z) n cn (k 3%Z) dt in
      let s3 := mkStage tmp (tmp 2%Z) k3 in
      (* y = x + dt*(k0+2*k1+2*k2+k3)/6 *)
      let u := fset u 0 (op2D (u 0%Z) (u 0%Z) (k0 0%Z) 1 (dt / 6) (n + 1)) in
      let u := fset u 1 (op2D (u 1%Z) (u 1%Z) (k0 1%Z) 1 (dt / 6) (n + 1)) in
      let c := op2D c c (k0 2%Z) 1 (dt / 6) cn in
      let u := fset u 0 (op2D (u 0%Z) (u 0%Z) (k1 0%Z) 1 (dt / 3) (n + 1)) in
      let u := fset u 1 (op2D (u 1%Z) (u 1%Z) (k1 1%Z) 1 (dt / 3) (n + 1)) in
      let c := op2D c c (k1 2%Z) 1 (dt / 3) cn in
      let u := fset u 0 (op2D (u 0%Z) (u 0%Z) (k2 0%Z) 1 (dt / 3) (n + 1)) in
      let u := fset u 1 (op2D (u 1%Z) (u 1%Z) (k2 1%Z) 1 (dt / 3) (n + 1)) in
      let c := op2D c c (k2 2%Z) 1 (dt / 3) cn in
      let u := fset u 0 (op2D (u 0%Z) (u 0%Z) (k3 0%Z) 1 (dt / 6) (n + 1)) in
      let u := fset u 1 (op2D (u 1%Z) (u 1%Z) (k3 1%Z) 1 (dt / 6) (n + 1)) in
      let c := op2D c c (k3 2%Z) 1 (dt / 6) cn in
      ((u, c), [s0; s1; s2; s3])
    else ((u, c), [])
  else
    let '(g, k0) := advect_step g method u c n cn (k 0%Z) dt in
    let s0 := mkStage u c k0 in
    let u := fset u 0 (copy2D (u 0%Z) (k0 0%Z) (n + 1)) in
    let u := fset u 1 (copy2D (u 1%Z) (k0 1%Z) (n + 1)) in
    let c := copy2D c (k0 2%Z) cn in
    ((u, c), [s0]).

(** [advect::advect]: the caller's velocity and concentration after the call. *)
Definition advect (method interp integrator : Z) (u : Field) (c : Grid)
    (n cn : Z) (dt : Q) : Field * Grid :=
  fst (advect_trace method interp integrator u c n cn dt).

(** ** Vocabulary of the statements *)

(** Whether the loop visits cell [(i,j)] among the counters [l]. *)
Definition visits (w : Z) (l : list Z) (i j : Z) : bool :=
  existsb (fun n => (Z.rem n w =? i) && (Z.quot n w =? j))%Z%bool l.

(** A local array given by its elements. *)
Definition arr_of (l : list Q) : Arr := fun k => nth (Z.to_nat k) l 0.

(** A grid given by its columns: [grid_of [c0; c1; ...] i j] is element [j]
    of [ci], and 0 outside. *)
Definition grid_of (l : list (list Q)) : Grid :=
  fun i j => if ((i <? 0) || (j <? 0))%Z%bool then 0
             else nth (Z.to_nat j) (nth (Z.to_nat i) l []) 0.

(** The nearest point of the integer interval [lo, hi]: an index "clamped to
    [lo, hi]" in the words of the specification. *)
Definition clamp (lo hi x : Z) : Z :=
  if (x <? lo)%Z then lo else if (hi <? x)%Z then hi else x.

(** The extents of the three fields at resolutions [n] and [cn]. *)
Definition in_x_flow (n i j : Z) : Prop := (0 <= i <= n /\ 0 <= j <= n - 1)%Z.
Definition in_y_flow (n i j : Z) : Prop := (0 <= i <= n - 1 /\ 0 <= j <= n)%Z.
Definition in_cells (cn i j : Z) : Prop := (0 <= i <= cn - 1 /\ 0 <= j <= cn - 1)%Z.

(** The grid cell with lower corner [(i0,j0)] lies in a [w] x [h] grid and
    holds the point [(x,y)]. *)
Definition surrounds (w h i0 j0 : Z) (x y : Q) : Prop :=
  (0 <= i0 /\ i0 + 1 <= w - 1 /\ 0 <= j0 /\ j0 + 1 <= h - 1)%Z
  /\ inject_Z i0 <= x /\ x <= inject_Z (i0 + 1)
  /\ inject_Z j0 <= y /\ y <= inject_Z (j0 + 1).

(** [v] lies between the least and the greatest of the four values of [d0]
    at the corners of the cell [(i0,j0)]. *)
Definition within4 (d0 : Grid) (i0 j0 : Z) (v : Q) : Prop :=
  (d0 i0 j0 <= v \/ d0 (i0 + 1)%Z j0 <= v
   \/ d0 i0 (j0 + 1)%Z <= v \/ d0 (i0 + 1)%Z (j0 + 1)%Z <= v)
  /\ (v <= d0 i0 j0 \/ v <= d0 (i0 + 1)%Z j0
      \/ v <= d0 i0 (j0 + 1)%Z \/ v <= d0 (i0 + 1)%Z (j0 + 1)%Z).

(** The globals as [advect] sets them on entry. *)
Definition entry_globals (interp : Z) (u : Field) (c : Grid) (n cn : Z) : Globals :=
  mkGlobals u c n cn
    (if (interp =? 0)%Z then linear_interpolate
     else if (interp =? 1)%Z then spline_interpolate
     else monotonic_cubic).

(** A stage buffer [k[kn]] as allocated. *)
Definition fresh_k (n cn : Z) : Field :=
  fun m => if (m =? 2)%Z then alloc2D cn else alloc2D (n + 1).

(** The stage [s] holds the derivative of the state it was given. *)
Definition evaluates (g : Globals) (method n cn : Z) (dt : Q) (s : Stage) : Prop :=
  stage_k s = snd (advect_step g method (stage_u s) (stage_c s) n cn (fresh_k n cn) dt).

(** The state given to the stage [s] is built from the state [(u, c)] and the
    derivative [k] as [a_u * u + b * k] on both velocity components and
    [a_c * c + b * k] on the concentration. *)
Definition fed_blend (u : Field) (c : Grid) (n cn : Z) (a_u a_c b : Q)
    (k : Field) (s : Stage) : Prop :=
  (forall i j, in_rect (n + 1) (n + 1) i j = true ->
     stage_u s 0%Z i j == a_u * u 0%Z i j + b * k 0%Z i j
     /\ stage_u s 1%Z i j == a_u * u 1%Z i j + b * k 1%Z i j)
  /\ (forall i j, in_rect cn cn i j = true ->
     stage_c s i j == a_c * c i j + b * k 2%Z i j).

(** The values that the three loops of [advect_diff] leave in a cell of
    [out[0]], [out[1]] and [out[2]]: what the assignment of 0.0 and the two
    [+=] of a loop body add up to. *)
Definition x_flow_value (g : Globals) (method : Z) (u : Field) (n i j : Z) : Q :=
  let v0 := u 0%Z i j in
  let v1 := (u_ref g 1 (i - 1) j + u_ref g 1 i j
             + u_ref g 1 (i - 1) (j + 1) + u_ref g 1 i (j + 1)) / 4 in
  0
  + advdiff method v0 (u_ref g 0 (i - 3) j) (u_ref g 0 (i - 2) j)
      (u_ref g 0 (i - 1) j) (u_ref g 0 i j) (u_ref g 0 (i + 1) j)
      (u_ref g 0 (i + 2) j) (u_ref g 0 (i + 3) j) * inject_Z n
  + advdiff method v1 (u_ref g 0 i (j - 3)) (u_ref g 0 i (j - 2))
      (u_ref g 0 i (j - 1)) (u_ref g 0 i j) (u_ref g 0 i (j + 1))
      (u_ref g 0 i (j + 2)) (u_ref g 0 i (j + 3)) * inject_Z n.

Definition y_flow_value (g : Globals) (method : Z) (u : Field) (n i j : Z) : Q :=
  let v0 := (u_ref g 0 i (j - 1) + u_ref g 0 i j
             + u_ref g 0 (i + 1) j + u_ref g 0 (i + 1) (j - 1)) / 4 in
  let v1 := u 1%Z i j in
  0
  + advdiff method v0 (u_ref g 1 (i - 3) j) (u_ref g 1 (i - 2) j)
      (u_ref g 1 (i - 1) j) (u_ref g 1 i j) (u_ref g 1 (i + 1) j)
      (u_ref g 1 (i + 2) j) (u_ref g 1 (i + 3) j) * inject_Z n
  + advdiff method v1 (u_ref g 1 i (j - 3)) (u_ref g 1 i (j - 2))
      (u_ref g 1 i (j - 1)) (u_ref g 1 i j) (u_ref g 1 i (j + 1))
      (u_ref g 1 i (j + 2)) (u_ref g 1 i (j + 3)) * inject_Z n.

Definition concentration_value (g : Globals) (method : Z) (u : Field)
    (n cn i j : Z) : Q :=
  let up := cell_velocity u n in
  let x := inject_Z (i * n) / inject_Z cn in
  let y := inject_Z (j * n) / inject_Z cn in
  let v0 := linear_interpolate (up 0%Z) n n x y in
  let v1 := linear_interpolate (up 1%Z) n n x y in
  0
  + advdiff method v0 (c_ref g (i - 3) j) (c_ref g (i - 2) j)
      (c_ref g (i - 1) j) (c_ref g i j) (c_ref g (i + 1) j)
      (c_ref g (i + 2) j) (c_ref g (i + 3) j) * inject_Z cn
  + advdiff method v1 (c_ref g i (j - 3)) (c_ref g i (j - 2))
      (c_ref g i (j - 1)) (c_ref g i j) (c_ref g i (j + 1))
      (c_ref g i (j + 2)) (c_ref g i (j + 3)) * inject_Z cn.

(** The common shape of [monotonic_cubic] and [spline_interpolate]: the 1D
    cubic [cubic] along the four rows of the gathered stencil, then along
    the four results. *)
Definition bicubic (cubic : Arr -> Q -> Q) (d : Grid) (width height : Z)
    (x y : Q) : Q :=
  let x := fmax 0 (fmin (inject_Z width) x) in
  let y := fmax 0 (fmin (inject_Z height) y) in
  let f := gather d width height x y in
  let xn := fold_left (fun xn j =>
      astore xn j (cubic (row f j) (x - inject_Z (trunc x))))
      [0; 1; 2; 3]%Z uninit in
  cubic xn (y - inject_Z (trunc y)).

(** A kernel returns the stored value at a grid node. *)
Definition exact_at_nodes (K : Kernel) : Prop :=
  forall (d : Grid) (w h : Z) (x y : Q) (i j : Z),
    (0 <= i <= w - 1)%Z -> (0 <= j <= h - 1)%Z ->
    x == inject_Z i -> y == inject_Z j -> K d w h x y == d i j.

(** A kernel returns 0 on a grid that is 0 everywhere. *)
Definition vanishes_on_zero (K : Kernel) : Prop :=
  forall (d : Grid) (w h : Z) (x y : Q),
    (forall i j, d i j == 0) -> K d w h x y == 0.

(** The fields [r] agree with [(u, c)] on the extents of the x-velocity, of
    the y-velocity and of the concentration. *)
Definition same_fields (n cn : Z) (r : Field * Grid) (u : Field) (c : Grid) : Prop :=
  (forall i j, in_x_flow n i j -> fst r 0%Z i j == u 0%Z i j)
  /\ (forall i j, in_y_flow n i j -> fst r 1%Z i j == u 1%Z i j)
  /\ (forall i j, in_cells cn i j -> snd r i j == c i j).

(** Both components of the velocity are 0 over their extents. *)
Definition zero_velocity (n : Z) (u : Field) : Prop :=
  (forall i j, in_x_flow n i j -> u 0%Z i j == 0)
  /\ (forall i j, in_y_flow n i j -> u 1%Z i j == 0).

(** The trace does not move: the timestep is 0, or the velocity it follows
    is 0 everywhere. *)
Definition motionless (dt : Q) (v : Field) : Prop :=
  dt == 0 \/ (forall k i j, v k i j == 0).

(** A stage result that is 0 over the extents of the three fields. *)
Definition flat (n cn : Z) (k : Field) : Prop :=
  (forall i j, in_x_flow n i j -> k 0%Z i j == 0)
  /\ (forall i j, in_y_flow n i j -> k 1%Z i j == 0)
  /\ (forall i j, in_cells cn i j -> k 2%Z i j == 0).

(** The temporary state that the three [op2D] calls before a stage build in
    [tmp] from the state [(u, c)] and the stage result [k]. *)
Definition stage_state (tmp0 u : Field) (c : Grid) (k : Field) (b : Q)
    (n cn : Z) : Field :=
  let tmp := fset tmp0 0 (op2D (tmp0 0%Z) (u 0%Z) (k 0%Z) 1 b (n + 1)) in
  let tmp := fset tmp 1 (op2D (tmp 1%Z) (u 1%Z) (k 1%Z) 1 b (n + 1)) in
  let tmp := fset tmp 2 (op2D (tmp 2%Z) c (k 2%Z) 0.5 b cn) in
  tmp.

(** The state after the three [op2D] calls that add [b] times the stage
    result [k] to the fields. *)
Definition add_stage (r : Field * Grid) (k : Field) (b : Q) (n cn : Z) :
    Field * Grid :=
  let u := fst r in
  let c := snd r in
  let u := fset u 0 (op2D (u 0%Z) (u 0%Z) (k 0%Z) 1 b (n + 1)) in
  let u := fset u 1 (op2D (u 1%Z) (u 1%Z) (k 1%Z) 1 b (n + 1)) in
  let c := op2D c c (k 2%Z) 1 b cn in
  (u, c).

(** ** Vocabulary of the further properties *)

(** [spline_cubic] with its three loops unrolled, as a function of the four
    samples ([mu[0]], [z[0]] and [c[3]] are the zeros the code stores). *)
Definition spline_closed (a0 a1 a2 a3 x : Q) : Q :=
  let alpha1 := 3 * (a2 - a1) - 3 * (a1 - a0) in
  let alpha2 := 3 * (a3 - a2) - 3 * (a2 - a1) in
  let l1 := 4 - 0 in
  let mu1 := 1 / l1 in
  let z1 := (alpha1 - 0) / l1 in
  let l2 := 4 - mu1 in
  let mu2 := 1 / l2 in
  let z2 := (alpha2 - z1) / l2 in
  let c2 := z2 - mu2 * 0 in
  let c1 := z1 - mu1 * c2 in
  let b1 := a2 - a1 - (c2 + 2 * c1) / 3 in
  let d1 := (c2 - c1) / 3 in
  fmin (fmax a2 a1) (fmax (fmin a1 a2) (a1 + b1 * x + c1 * x * x + d1 * x * x * x)).

(** [v] lies between the least and the greatest of four values. *)
Definition between4 (a b c e v : Q) : Prop :=
  (a <= v \/ b <= v \/ c <= v \/ e <= v) /\ (v <= a \/ v <= b \/ v <= c \/ v <= e).

(** [v] lies between two values that the [w] x [h] grid [d] stores. *)
Definition no_new_extremum (d : Grid) (w h : Z) (v : Q) : Prop :=
  exists i1 j1 i2 j2,
    (0 <= i1 <= w - 1 /\ 0 <= j1 <= h - 1)%Z
    /\ (0 <= i2 <= w - 1 /\ 0 <= j2 <= h - 1)%Z
    /\ d i1 j1 <= v /\ v <= d i2 j2.

(** * Properties *)

(** ** Comparisons, [min] and [max] *)

Lemma Qgtb_true (a b : Q) : Qgtb a b = true <-> b < a.
Proof.
  unfold Qgtb. rewrite negb_true_iff, <- not_true_iff_false, Qle_bool_iff.
  split; [apply Qnot_le_lt | apply Qlt_not_le].
Qed.

Lemma Qgtb_false (a b : Q) : Qgtb a b = false <-> a <= b.
Proof.
  unfold Qgtb. rewrite negb_false_iff. apply Qle_bool_iff.
Qed.

Lemma Qgtb_spec (a b : Q) : {Qgtb a b = true /\ b < a} + {Qgtb a b = false /\ a <= b}.
Proof.
  destruct (Qgtb a b) eqn:E; [left | right]; split; trivial.
  - now apply Qgtb_true.
  - now apply Qgtb_false.
Qed.

Ltac case_Qgtb a b :=
  let E := fresh "E" in let H := fresh "H" in
  destruct (Qgtb_spec a b) as [[E H] | [E H]]; rewrite ?E in *.

Lemma fmax_cases (a b : Q) : (b < a /\ fmax a b = a) \/ (a <= b /\ fmax a b = b).
Proof. unfold fmax. case_Qgtb a b; auto. Qed.

Lemma fmin_cases (a b : Q) : (b < a /\ fmin a b = b) \/ (a <= b /\ fmin a b = a).
Proof. unfold fmin. case_Qgtb a b; auto. Qed.

Lemma fmax_l (a b : Q) : a <= fmax a b.
Proof. destruct (fmax_cases a b) as [[? ->] | [? ->]]; lra. Qed.

Lemma fmax_r (a b : Q) : b <= fmax a b.
Proof. destruct (fmax_cases a b) as [[? ->] | [? ->]]; lra. Qed.

Lemma fmin_l (a b : Q) : fmin a b <= a.
Proof. destruct (fmin_cases a b) as [[? ->] | [? ->]]; lra. Qed.

Lemma fmin_r (a b : Q) : fmin a b <= b.
Proof. destruct (fmin_cases a b) as [[? ->] | [? ->]]; lra. Qed.

Lemma fmax_lub (a b m : Q) : a <= m -> b <= m -> fmax a b <= m.
Proof. intros. destruct (fmax_cases a b) as [[? ->] | [? ->]]; lra. Qed.

Lemma fmin_glb (a b m : Q) : m <= a -> m <= b -> m <= fmin a b.
Proof. intros. destruct (fmin_cases a b) as [[? ->] | [? ->]]; lra. Qed.

(** [max(min(v,hi),lo)] and [min(hi,max(lo,v))] keep a value that is already
    between the bounds. *)
Lemma fmax_fmin_id (v lo hi : Q) : lo <= v -> v <= hi -> fmax (fmin v hi) lo == v.
Proof.
  intros. destruct (fmin_cases v hi) as [[? ->] | [? ->]];
    [destruct (fmax_cases hi lo) as [[? ->] | [? ->]]
    | destruct (fmax_cases v lo) as [[? ->] | [? ->]]]; lra.
Qed.

Lemma fmin_fmax_id (v lo hi : Q) : lo <= v -> v <= hi -> fmin hi (fmax lo v) == v.
Proof.
  intros. destruct (fmax_cases lo v) as [[? ->] | [? ->]];
    [destruct (fmin_cases hi lo) as [[? ->] | [? ->]]
    | destruct (fmin_cases hi v) as [[? ->] | [? ->]]]; lra.
Qed.

Lemma imax_max (a b : Z) : imax a b = Z.max a b.
Proof. unfold imax. destruct (Z.gtb_spec a b); lia. Qed.

Lemma imin_min (a b : Z) : imin a b = Z.min a b.
Proof. unfold imin. destruct (Z.gtb_spec a b); lia. Qed.

(** ** Truncation *)

Lemma trunc_inject_Z (k : Z) : trunc (inject_Z k) = k.
Proof. unfold trunc. simpl. apply Z.quot_1_r. Qed.

Lemma trunc_nonneg (x : Q) : 0 <= x -> trunc x = Qfloor x.
Proof.
  destruct x as [p q]. unfold trunc, Qfloor, Qle. simpl. intros H.
  apply Z.quot_div_nonneg; lia.
Qed.

(** [(int)x] depends on the value of [x] only. *)
Lemma trunc_eq_Z (x : Q) (k : Z) : x == inject_Z k -> trunc x = k.
Proof.
  destruct x as [p q]. unfold trunc, Qeq. simpl. intros H.
  rewrite Z.mul_1_r in H. subst p. apply Z.quot_mul. lia.
Qed.

Lemma trunc_floor_bounds (x : Q) :
  0 <= x -> inject_Z (trunc x) <= x /\ x < inject_Z (trunc x + 1).
Proof.
  intros H. rewrite (trunc_nonneg x H). split.
  - apply Qfloor_le.
  - apply Qlt_floor.
Qed.

Lemma trunc_nonneg_le (x : Q) : 0 <= x -> (0 <= trunc x)%Z.
Proof.
  intros H. rewrite (trunc_nonneg x H).
  change 0%Z with (Qfloor 0). now apply Qfloor_resp_le.
Qed.

(** ** Stores *)

Lemma store_same (d : Grid) (i j : Z) (v : Q) : store d i j v i j = v.
Proof. unfold store. now rewrite !Z.eqb_refl. Qed.

Lemma store_other (d : Grid) (i j i' j' : Z) (v : Q) :
  i' <> i \/ j' <> j -> store d i j v i' j' = d i' j'.
Proof.
  unfold store. intros [H | H]; apply Z.eqb_neq in H; rewrite H;
    [reflexivity | now rewrite andb_false_r].
Qed.

Lemma fstore_same (f : Field) (k i j : Z) (v : Q) : fstore f k i j v k i j = v.
Proof. unfold fstore. rewrite Z.eqb_refl. apply store_same. Qed.

Lemma fstore_other_cell (f : Field) (k i j i' j' : Z) (v : Q) :
  i' <> i \/ j' <> j -> fstore f k i j v k i' j' = f k i' j'.
Proof. intros H. unfold fstore. rewrite Z.eqb_refl. now apply store_other. Qed.

Lemma fstore_other_grid (f : Field) (k k' i j : Z) (v : Q) :
  k' <> k -> fstore f k i j v k' = f k'.
Proof. intros H. unfold fstore. apply Z.eqb_neq in H. now rewrite H. Qed.

(** ** Loops over a grid *)

Lemma in_rect_true (w h i j : Z) :
  in_rect w h i j = true <-> (0 <= i < w /\ 0 <= j < h)%Z.
Proof. unfold in_rect. rewrite !andb_true_iff. lia. Qed.

Lemma in_rect_false (w h i j : Z) :
  in_rect w h i j = false <-> ~ (0 <= i < w /\ 0 <= j < h)%Z.
Proof. rewrite <- in_rect_true. symmetry. apply not_true_iff_false. Qed.

Lemma In_zrange (m k : Z) : In k (zrange m) <-> (0 <= k < m)%Z.
Proof.
  unfold zrange. rewrite in_map_iff. split.
  - intros [x [<- H]]. apply in_seq in H. lia.
  - intros H. exists (Z.to_nat k). split; [lia |]. apply in_seq. lia.
Qed.

Lemma visits_zrange (w h i j : Z) :
  (0 < w)%Z -> (0 <= h)%Z -> visits w (zrange (w * h)) i j = in_rect w h i j.
Proof.
  intros Hw Hh. apply eq_true_iff_eq. unfold visits.
  rewrite existsb_exists, in_rect_true. split.
  - intros [k [Hk E]]. apply In_zrange in Hk.
    apply andb_true_iff in E. destruct E as [E1 E2].
    apply Z.eqb_eq in E1, E2.
    rewrite Z.rem_mod_nonneg in E1 by lia.
    rewrite Z.quot_div_nonneg in E2 by lia.
    subst i j. split.
    + apply Z.mod_pos_bound; lia.
    + split; [apply Z.div_pos; lia | apply Z.div_lt_upper_bound; lia].
  - intros [Hi Hj]. exists (i + j * w)%Z. split.
    + apply In_zrange. nia.
    + rewrite Z.rem_mod_nonneg, Z.quot_div_nonneg by nia.
      rewrite Z.mod_add, Z.div_add by lia.
      rewrite Z.mod_small, Z.div_small by lia.
      apply andb_true_iff. split; apply Z.eqb_eq; lia.
Qed.

Section ForCells.
Context {S A : Type}.
Variable get : S -> Z -> Z -> A.
Variable body : Z -> Z -> S -> S.
Variable val : Z -> Z -> A.
Variable w : Z.

(** The body writes [val i j] to cell [(i,j)] of the component [get] and
    leaves the other cells of that component alone. *)
Hypothesis body_writes : forall i j s, get (body i j s) i j = val i j.
Hypothesis body_frames : forall i j s i' j',
  i' <> i \/ j' <> j -> get (body i j s) i' j' = get s i' j'.

Lemma fold_cells_get (l : list Z) (s : S) (i j : Z) :
  get (fold_left (fun s n => body (Z.rem n w) (Z.quot n w) s) l s) i j
  = if visits w l i j then val i j else get s i j.
Proof.
  revert s. induction l as [| n l IH]; intros s; simpl; [reflexivity |].
  rewrite IH. destruct (visits w l i j); [now rewrite orb_true_r |].
  rewrite orb_false_r.
  destruct (Z.eqb_spec (Z.rem n w) i) as [<- | Hi]; simpl.
  - destruct (Z.eqb_spec (Z.quot n w) j) as [<- | Hj].
    + apply body_writes.
    + apply body_frames. now right.
  - apply body_frames. left. congruence.
Qed.

Lemma for_cells_get (h : Z) (s : S) (i j : Z) :
  (0 < w)%Z -> (0 <= h)%Z ->
  get (for_cells w h body s) i j
  = if in_rect w h i j then val i j else get s i j.
Proof.
  intros Hw Hh. unfold for_cells. rewrite fold_cells_get.
  now rewrite visits_zrange.
Qed.
End ForCells.

(** A component the body never touches is left as it was. *)
Lemma for_cells_frame {S A : Type} (get : S -> A) (body : Z -> Z -> S -> S)
    (w h : Z) (s : S) :
  (forall i j s, get (body i j s) = get s) ->
  get (for_cells w h body s) = get s.
Proof.
  intros H. unfold for_cells. generalize (zrange (w * h)). intros l. revert s.
  induction l as [| n l IH]; intros s; simpl; [reflexivity |].
  now rewrite IH, H.
Qed.

(** ** The field samplers *)

(** C3.  [c_ref(i,j)] is exactly 0 outside [0,cn-1] x [0,cn-1] and the stored
    concentration inside; [u_ref(0,i,j)] is the x-velocity at the indices
    clamped to [0,n] x [0,n-1] and [u_ref(1,i,j)] the y-velocity at the
    indices clamped to [0,n-1] x [0,n].  Both are total functions of the
    globals and the indices: they have no failure and return no state. *)
Theorem sampler_reads (g : Globals) (i j : Z) :
  (1 <= gn g)%Z ->
  c_ref g i j = (if in_rect (gcn g) (gcn g) i j then gc g i j else 0)
  /\ u_ref g 0 i j = gu g 0%Z (clamp 0 (gn g) i) (clamp 0 (gn g - 1) j)
  /\ u_ref g 1 i j = gu g 1%Z (clamp 0 (gn g - 1) i) (clamp 0 (gn g) j).
Proof.
  intros Hn. split; [| split].
  - unfold c_ref, in_rect.
    destruct (Z.ltb_spec i 0), (Z.gtb_spec i (gcn g - 1)),
      (Z.ltb_spec j 0), (Z.gtb_spec j (gcn g - 1)),
      (Z.leb_spec 0 i), (Z.ltb_spec i (gcn g)),
      (Z.leb_spec 0 j), (Z.ltb_spec j (gcn g)); simpl; trivial; lia.
  - unfold u_ref. simpl. rewrite !imax_max, !imin_min. f_equal.
    + unfold clamp. destruct (Z.ltb_spec i 0), (Z.ltb_spec (gn g) i); lia.
    + unfold clamp. destruct (Z.ltb_spec j 0), (Z.ltb_spec (gn g - 1) j); lia.
  - unfold u_ref. simpl. rewrite !imax_max, !imin_min. f_equal.
    + unfold clamp. destruct (Z.ltb_spec i 0), (Z.ltb_spec (gn g - 1) i); lia.
    + unfold clamp. destruct (Z.ltb_spec j 0), (Z.ltb_spec (gn g) j); lia.
Qed.

Lemma sampler_reads_witness :
  let g := mkGlobals (fun k i j => inject_Z (k + 10 * i + 100 * j)) (fun i j => inject_Z (i + 10 * j))
             2 3 linear_interpolate in
  (1 <= gn g)%Z
  /\ (c_ref g 3 1 = 0 /\ c_ref g 2 1 = 12
      /\ u_ref g 0 5 (-3) = 20 /\ u_ref g 1 5 (-3) = 11).
Proof.
  intros g. split; [simpl; lia |].
  destruct (sampler_reads g 3 1) as [H1 _]; [simpl; lia |].
  destruct (sampler_reads g 2 1) as [H2 _]; [simpl; lia |].
  destruct (sampler_reads g 5 (-3)) as [_ [H3 H4]]; [simpl; lia |].
  rewrite H1, H2, H3, H4. repeat split.
Defined.

(** ** The monotonic cubic *)

(** C4, at the failing input.  The samples 0, 100, 101, 101 increase and
    the offset 1/2 lies in [0,1], yet [monotonic_cubic_4] returns 113, above
    the largest sample 101: the slopes are given the sign of the central
    difference but their size is not limited. *)
Theorem monotonic_cubic_4_overshoots :
  let a := arr_of [0; 100; 101; 101] in
  0 <= 1 # 2 /\ 1 # 2 <= 1
  /\ monotonic_cubic_4 a (1 # 2) == 113
  /\ a 0%Z <= 101 /\ a 1%Z <= 101 /\ a 2%Z <= 101 /\ a 3%Z <= 101
  /\ ~ monotonic_cubic_4 a (1 # 2) <= 101.
Proof.
  vm_compute. repeat split; try discriminate. intros H. now apply H.
Qed.

(** ** MacCormack *)

Lemma maccormack_get (g : Globals) (d d0 : Grid) (w h : Z) (u : Field) (dt : Q)
    (i j : Z) :
  (0 < w)%Z -> (0 <= h)%Z ->
  maccormack g d d0 w h u dt i j
  = if in_rect w h i j then maccormack_value g d0 w h u dt i j else d i j.
Proof.
  intros Hw Hh. unfold maccormack.
  apply (for_cells_get (fun s : Grid => s)
           (fun i j d => store d i j (maccormack_value g d0 w h u dt i j))
           (maccormack_value g d0 w h u dt)); trivial.
  - intros. apply store_same.
  - intros. now apply store_other.
Qed.

Lemma fmin4_among (a b c d : Q) :
  let m := fmin (fmin (fmin a b) c) d in m = a \/ m = b \/ m = c \/ m = d.
Proof.
  simpl.
  destruct (fmin_cases (fmin (fmin a b) c) d) as [[_ ->] | [_ ->]]; auto.
  destruct (fmin_cases (fmin a b) c) as [[_ ->] | [_ ->]]; auto.
  destruct (fmin_cases a b) as [[_ ->] | [_ ->]]; auto.
Qed.

Lemma fmax4_among (a b c d : Q) :
  let m := fmax (fmax (fmax a b) c) d in m = a \/ m = b \/ m = c \/ m = d.
Proof.
  simpl.
  destruct (fmax_cases (fmax (fmax a b) c) d) as [[_ ->] | [_ ->]]; auto.
  destruct (fmax_cases (fmax a b) c) as [[_ ->] | [_ ->]]; auto.
  destruct (fmax_cases a b) as [[_ ->] | [_ ->]]; auto.
Qed.

Lemma fmin4_le_fmax4 (a b c d : Q) :
  fmin (fmin (fmin a b) c) d <= fmax (fmax (fmax a b) c) d.
Proof.
  pose proof (fmin_l (fmin (fmin a b) c) d). pose proof (fmin_l (fmin a b) c).
  pose proof (fmin_l a b). pose proof (fmax_l (fmax (fmax a b) c) d).
  pose proof (fmax_l (fmax a b) c). pose proof (fmax_l a b). lra.
Qed.

(** The limiter of [maccormack]: whatever the interpolations return, the
    value lies between the least and the greatest corner value. *)
Lemma maccormack_value_within (g : Globals) (d0 : Grid) (w h : Z) (u : Field)
    (dt : Q) (i j : Z) :
  within4 d0 (corner w (trace_x g w u dt i j)) (corner h (trace_y g h u dt i j))
    (maccormack_value g d0 w h u dt i j).
Proof.
  unfold maccormack_value, within4.
  set (i0 := corner w _). set (j0 := corner h _).
  set (r := _ + 0.5 * _).
  set (a := d0 i0 j0). set (b := d0 (i0 + 1)%Z j0).
  set (c := d0 i0 (j0 + 1)%Z). set (e := d0 (i0 + 1)%Z (j0 + 1)%Z).
  pose proof (fmin4_le_fmax4 a b c e) as Hmm.
  pose proof (fmin4_among a b c e) as Hlo. pose proof (fmax4_among a b c e) as Hhi.
  simpl in Hlo, Hhi.
  set (lo := fmin (fmin (fmin a b) c) e) in *.
  set (hi := fmax (fmax (fmax a b) c) e) in *.
  assert (Hl : lo <= fmax (fmin r hi) lo) by apply fmax_r.
  assert (Hu : fmax (fmin r hi) lo <= hi).
  { apply fmax_lub; [apply fmin_r | exact Hmm]. }
  generalize dependent (fmax (fmin r hi) lo). intros v Hl Hu.
  split.
  - destruct Hlo as [E | [E | [E | E]]]; rewrite E in Hl; auto.
  - destruct Hhi as [E | [E | [E | E]]]; rewrite E in Hu; auto.
Qed.

Lemma inject_Z_le (a b : Z) : (a <= b)%Z -> inject_Z a <= inject_Z b.
Proof. now rewrite <- Zle_Qle. Qed.

Lemma inject_Z_le_inv (a b : Z) : inject_Z a <= inject_Z b -> (a <= b)%Z.
Proof. now rewrite <- Zle_Qle. Qed.

(** A coordinate [x] of [0, extent-1] lies in the cell that [corner] picks,
    and that cell is inside the grid. *)
Lemma corner_holds (extent : Z) (x : Q) :
  (2 <= extent)%Z -> 0 <= x -> x <= inject_Z (extent - 1) ->
  (0 <= corner extent x /\ corner extent x + 1 <= extent - 1)%Z
  /\ inject_Z (corner extent x) <= x /\ x <= inject_Z (corner extent x + 1).
Proof.
  intros He H0 H1. unfold corner.
  destruct (trunc_floor_bounds x H0) as [Hlo Hhi].
  pose proof (trunc_nonneg_le x H0) as Ht.
  rewrite imax_max, imin_min.
  assert (Hle : (trunc x <= extent - 1)%Z).
  { apply inject_Z_le_inv. lra. }
  rewrite Z.max_r by lia.
  destruct (Z.le_gt_cases (trunc x) (extent - 2)) as [Hc | Hc].
  - rewrite Z.min_r by lia. split; [lia |]. split; [exact Hlo |].
    apply Qlt_le_weak. exact Hhi.
  - rewrite Z.min_l by lia. split; [lia |].
    assert (E : trunc x = (extent - 1)%Z) by lia.
    replace (extent - 2 + 1)%Z with (extent - 1)%Z by lia.
    split; [| exact H1].
    rewrite E in Hlo.
    assert (inject_Z (extent - 2) <= inject_Z (extent - 1)) by (apply inject_Z_le; lia).
    lra.
Qed.

Lemma trace_x_range (g : Globals) (w : Z) (u : Field) (dt : Q) (i j : Z) :
  (1 <= w)%Z -> 0 <= trace_x g w u dt i j /\ trace_x g w u dt i j <= inject_Z (w - 1).
Proof.
  intros Hw. unfold trace_x. split; [| apply fmin_l].
  apply fmin_glb; [| apply fmax_l].
  change 0 with (inject_Z 0). apply inject_Z_le. lia.
Qed.

Lemma trace_y_range (g : Globals) (h : Z) (u : Field) (dt : Q) (i j : Z) :
  (1 <= h)%Z -> 0 <= trace_y g h u dt i j /\ trace_y g h u dt i j <= inject_Z (h - 1).
Proof.
  intros Hh. unfold trace_y. split; [| apply fmin_l].
  apply fmin_glb; [| apply fmax_l].
  change 0 with (inject_Z 0). apply inject_Z_le. lia.
Qed.

Lemma trace_surrounded (g : Globals) (w h : Z) (u : Field) (dt : Q) (i j : Z) :
  (2 <= w)%Z -> (2 <= h)%Z ->
  surrounds w h (corner w (trace_x g w u dt i j)) (corner h (trace_y g h u dt i j))
    (trace_x g w u dt i j) (trace_y g h u dt i j).
Proof.
  intros Hw Hh.
  destruct (trace_x_range g w u dt i j) as [X0 X1]; [lia |].
  destruct (trace_y_range g h u dt i j) as [Y0 Y1]; [lia |].
  destruct (corner_holds w _ Hw X0 X1) as [[A1 A2] [A3 A4]].
  destruct (corner_holds h _ Hh Y0 Y1) as [[B1 B2] [B3 B4]].
  unfold surrounds. repeat split; assumption.
Qed.

(** What [advect] leaves in the fields when the method is MacCormack: the
    selected kernel is replaced by the spline, and the integrator is not
    consulted. *)
Lemma advect_maccormack (interp integrator : Z) (u : Field) (c : Grid)
    (n cn : Z) (dt : Q) :
  let g := mkGlobals u c n cn spline_interpolate in
  advect 4 interp integrator u c n cn dt
  = (fset (fset u 0
        (copy2D (u 0%Z)
           (maccormack g (alloc2D (n + 1)) (u 0%Z) (n + 1) n (face_velocity_x g u n) dt)
           (n + 1))) 1
       (copy2D (u 1%Z)
          (maccormack g (alloc2D (n + 1)) (u 1%Z) n (n + 1) (face_velocity_y g u n) dt)
          (n + 1)),
     copy2D c
       (maccormack g (alloc2D cn) c cn cn
          (concentration_velocity g (cell_velocity u n) n cn) dt) cn).
Proof.
  reflexivity.
Qed.

Lemma in_x_flow_rect (n i j : Z) :
  in_x_flow n i j -> in_rect (n + 1) n i j = true /\ in_rect (n + 1) (n + 1) i j = true.
Proof. unfold in_x_flow. rewrite !in_rect_true. lia. Qed.

Lemma in_y_flow_rect (n i j : Z) :
  in_y_flow n i j -> in_rect n (n + 1) i j = true /\ in_rect (n + 1) (n + 1) i j = true.
Proof. unfold in_y_flow. rewrite !in_rect_true. lia. Qed.

Lemma in_cells_rect (cn i j : Z) : in_cells cn i j -> in_rect cn cn i j = true.
Proof. unfold in_cells. rewrite !in_rect_true. lia. Qed.

(** C1.  With method = MacCormack, at every cell of the x-velocity, of the
    y-velocity and of the concentration, the value that [advect] leaves in
    the field lies between the least and the greatest of the previous values
    at the four grid cells around that cell's initial backward-traced point
    (the point lies in the grid cell they span). *)
Theorem maccormack_output_bounded (interp integrator : Z) (u : Field) (c : Grid)
    (n cn : Z) (dt : Q) :
  (2 <= n)%Z -> (2 <= cn)%Z ->
  let g := mkGlobals u c n cn spline_interpolate in
  let ux := face_velocity_x g u n in
  let uy := face_velocity_y g u n in
  let uc := concentration_velocity g (cell_velocity u n) n cn in
  let r := advect 4 interp integrator u c n cn dt in
  (forall i j, in_x_flow n i j ->
     let x := trace_x g (n + 1) ux dt i j in
     let y := trace_y g n ux dt i j in
     surrounds (n + 1) n (corner (n + 1) x) (corner n y) x y
     /\ within4 (u 0%Z) (corner (n + 1) x) (corner n y) (fst r 0%Z i j))
  /\ (forall i j, in_y_flow n i j ->
     let x := trace_x g n uy dt i j in
     let y := trace_y g (n + 1) uy dt i j in
     surrounds n (n + 1) (corner n x) (corner (n + 1) y) x y
     /\ within4 (u 1%Z) (corner n x) (corner (n + 1) y) (fst r 1%Z i j))
  /\ (forall i j, in_cells cn i j ->
     let x := trace_x g cn uc dt i j in
     let y := trace_y g cn uc dt i j in
     surrounds cn cn (corner cn x) (corner cn y) x y
     /\ within4 c (corner cn x) (corner cn y) (snd r i j)).
Proof.
  intros Hn Hcn g ux uy uc r. subst r. rewrite advect_maccormack.
  fold g. fold ux. fold uy. fold uc. cbn [fst snd].
  split; [| split]; intros i j Hij.
  - destruct (in_x_flow_rect n i j Hij) as [R1 R2].
    split; [apply trace_surrounded; lia |].
    unfold fset, copy2D. simpl. rewrite R2, maccormack_get, R1 by lia.
    apply maccormack_value_within.
  - destruct (in_y_flow_rect n i j Hij) as [R1 R2].
    split; [apply trace_surrounded; lia |].
    unfold fset, copy2D. simpl. rewrite R2, maccormack_get, R1 by lia.
    apply maccormack_value_within.
  - pose proof (in_cells_rect cn i j Hij) as R1.
    split; [apply trace_surrounded; lia |].
    unfold copy2D. rewrite R1, maccormack_get, R1 by lia.
    apply maccormack_value_within.
Qed.

Lemma maccormack_output_bounded_witness :
  let u : Field := fun k => grid_of [[1; 2; 3]; [0; 1; 5]; [2; 2; 1]] in
  let c := grid_of [[0; 1]; [3; 0]] in
  let g := mkGlobals u c 2 2 spline_interpolate in
  let uc := concentration_velocity g (cell_velocity u 2) 2 2 in
  (2 <= 2)%Z /\ (2 <= 2)%Z
  /\ within4 c (corner 2 (trace_x g 2 uc (1 # 10) 1 1))
       (corner 2 (trace_y g 2 uc (1 # 10) 1 1))
       (snd (advect 4 0 0 u c 2 2 (1 # 10)) 1%Z 1%Z).
Proof.
  intros u c g uc. split; [lia |]. split; [lia |].
  destruct (maccormack_output_bounded 0 0 u c 2 2 (1 # 10)) as [_ [_ H]]; [lia | lia |].
  apply (H 1%Z 1%Z). unfold in_cells. lia.
Defined.

(** C9.  With method = MacCormack the velocity and the concentration that
    [advect] returns are the same for any two values of the interpolation
    selector: [advect_semiLagrangian] assigns the spline kernel to
    [interp_func] before any kernel is called. *)
Theorem maccormack_ignores_interp (interp interp' integrator : Z) (u : Field)
    (c : Grid) (n cn : Z) (dt : Q) :
  advect 4 interp integrator u c n cn dt = advect 4 interp' integrator u c n cn dt.
Proof.
  now rewrite !advect_maccormack.
Qed.

(** ** The integrators *)

Lemma op2D_in (dest src0 src1 : Grid) (a b : Q) (n i j : Z) :
  in_rect n n i j = true -> op2D dest src0 src1 a b n i j = a * src0 i j + b * src1 i j.
Proof. intros H. unfold op2D. now rewrite H. Qed.

Lemma advect_step_eulerian (g : Globals) (method : Z) (u : Field) (c : Grid)
    (n cn : Z) (out : Field) (dt : Q) :
  (method < 3)%Z ->
  advect_step g method u c n cn out dt = (g, advect_diff g method u c n cn out dt).
Proof.
  intros H. unfold advect_step. apply Z.ltb_lt in H. now rewrite H.
Qed.

Lemma advect_step_globals (g : Globals) (method : Z) (u : Field) (c : Grid)
    (n cn : Z) (out : Field) (dt : Q) (g' : Globals) (k : Field) :
  (method < 3)%Z ->
  advect_step g method u c n cn out dt = (g', k) ->
  g' = g /\ k = snd (advect_step g method u c n cn out dt).
Proof.
  intros H E. rewrite E. split; [| reflexivity].
  rewrite advect_step_eulerian in E by assumption. congruence.
Qed.

Lemma fed_blend_op2D (u : Field) (c : Grid) (n cn : Z) (a_c b : Q)
    (k tmp0 : Field) (sk : Field) :
  let tmp := fset tmp0 0 (op2D (tmp0 0%Z) (u 0%Z) (k 0%Z) 1 b (n + 1)) in
  let tmp := fset tmp 1 (op2D (tmp 1%Z) (u 1%Z) (k 1%Z) 1 b (n + 1)) in
  let tmp := fset tmp 2 (op2D (tmp 2%Z) c (k 2%Z) a_c b cn) in
  fed_blend u c n cn 1 a_c b k (mkStage tmp (tmp 2%Z) sk).
Proof.
  split; intros i j Hij; cbn.
  - unfold fset. simpl. now rewrite !op2D_in by assumption.
  - unfold fset. simpl. now rewrite op2D_in by assumption.
Qed.

Ltac next_stage g1 k0 :=
  let E := fresh "E" in let Hg := fresh "Hg" in let Hk := fresh "Hk" in
  match goal with
  | |- context [advect_step ?g ?m ?u ?c ?n ?cn ?out ?dt] =>
      destruct (advect_step g m u c n cn out dt) as [g1 k0] eqn:E;
      apply advect_step_globals in E; [| assumption];
      destruct E as [Hg Hk]; subst g1
  end.

(** C8.  For a method below 3 (Upwind, WENO5, QUICK):
    with the Modified Euler integrator [advect] evaluates two stages, the
    first on the caller's state and the second on [state + dt*k0] for both
    velocity components but on [0.5*state + dt*k0] for the concentration;
    with Runge-Kutta it evaluates four, and each of the three temporary
    states has coefficient 1 on the velocity and 0.5 on the concentration
    ([+ 0.5*dt*k0], [+ 0.5*dt*k1], [+ dt*k2]). *)
Theorem stage_temporaries (method interp : Z) (u : Field) (c : Grid) (n cn : Z)
    (dt : Q) :
  (method < 3)%Z ->
  let g := entry_globals interp u c n cn in
  (exists s0 s1,
     snd (advect_trace method interp 1 u c n cn dt) = [s0; s1]
     /\ stage_u s0 = u /\ stage_c s0 = c
     /\ evaluates g method n cn dt s0 /\ evaluates g method n cn dt s1
     /\ fed_blend u c n cn 1 0.5 dt (stage_k s0) s1)
  /\ (exists s0 s1 s2 s3,
     snd (advect_trace method interp 2 u c n cn dt) = [s0; s1; s2; s3]
     /\ stage_u s0 = u /\ stage_c s0 = c
     /\ evaluates g method n cn dt s0 /\ evaluates g method n cn dt s1
     /\ evaluates g method n cn dt s2 /\ evaluates g method n cn dt s3
     /\ fed_blend u c n cn 1 0.5 (0.5 * dt) (stage_k s0) s1
     /\ fed_blend u c n cn 1 0.5 (0.5 * dt) (stage_k s1) s2
     /\ fed_blend u c n cn 1 0.5 dt (stage_k s2) s3).
Proof.
  intros Hm g. pose proof Hm as Hb. apply Z.ltb_lt in Hb.
  split.
  - unfold advect_trace. rewrite Hb.
    cbv beta iota zeta delta [Z.eqb Pos.eqb].
    next_stage g1 k0. next_stage g2 k1.
    do 2 eexists. split; [reflexivity |]. cbn [stage_u stage_c stage_k].
    split; [reflexivity |]. split; [reflexivity |].
    split; [exact Hk |]. split; [exact Hk0 |].
    apply (fed_blend_op2D u c n cn 0.5 dt k0).
  - unfold advect_trace. rewrite Hb.
    cbv beta iota zeta delta [Z.eqb Pos.eqb].
    next_stage g1 k0. next_stage g2 k1. next_stage g3 k2. next_stage g4 k3.
    do 4 eexists. split; [reflexivity |]. cbn [stage_u stage_c stage_k].
    split; [reflexivity |]. split; [reflexivity |].
    split; [exact Hk |]. split; [exact Hk0 |].
    split; [exact Hk1 |]. split; [exact Hk2 |].
    split; [apply (fed_blend_op2D u c n cn 0.5 (0.5 * dt) k0) |].
    split; [apply (fed_blend_op2D u c n cn 0.5 (0.5 * dt) k1) |].
    apply (fed_blend_op2D u c n cn 0.5 dt k2).
Qed.

(** ** The Eulerian step *)

Ltac fstore_cells :=
  cbv zeta;
  repeat first
    [ rewrite fstore_same
    | rewrite fstore_other_cell by assumption
    | rewrite fstore_other_grid by discriminate ].

Lemma advect_diff_get (g : Globals) (method : Z) (u : Field) (c : Grid)
    (n cn : Z) (out : Field) (dt : Q) (i j : Z) :
  (1 <= n)%Z -> (1 <= cn)%Z ->
  let k := advect_diff g method u c n cn out dt in
  k 0%Z i j = (if in_rect (n + 1) n i j then x_flow_value g method u n i j
               else out 0%Z i j)
  /\ k 1%Z i j = (if in_rect n (n + 1) i j then y_flow_value g method u n i j
                  else out 1%Z i j)
  /\ k 2%Z i j = (if in_rect cn cn i j then concentration_value g method u n cn i j
                  else out 2%Z i j).
Proof.
  intros Hn Hcn k. subst k. unfold advect_diff.
  unfold FOR_EVERY_X_FLOW, FOR_EVERY_Y_FLOW, FOR_EVERY_CELL.
  split; [| split].
  - rewrite (for_cells_frame (fun s : Field => s 0%Z))
      by (intros; now fstore_cells).
    rewrite (for_cells_frame (fun s : Field => s 0%Z))
      by (intros; now fstore_cells).
    apply (for_cells_get (fun s : Field => s 0%Z) _ (x_flow_value g method u n));
      try lia; intros; now fstore_cells.
  - rewrite (for_cells_frame (fun s : Field => s 1%Z))
      by (intros; now fstore_cells).
    rewrite (for_cells_get (fun s : Field => s 1%Z) _ (y_flow_value g method u n));
      try lia; try (intros; now fstore_cells).
    destruct (in_rect n (n + 1) i j); [reflexivity |].
    now rewrite (for_cells_frame (fun s : Field => s 1%Z))
      by (intros; now fstore_cells).
  - rewrite (for_cells_get (fun s : Field => s 2%Z) _
               (concentration_value g method u n cn));
      try lia; try (intros; now fstore_cells).
    destruct (in_rect cn cn i j); [reflexivity |].
    rewrite (for_cells_frame (fun s : Field => s 2%Z))
      by (intros; now fstore_cells).
    now rewrite (for_cells_frame (fun s : Field => s 2%Z))
      by (intros; now fstore_cells).
Qed.

Lemma advdiff_no_velocity (method : Z) (u d0 d1 d2 d3 d4 d5 d6 : Q) :
  u == 0 -> advdiff method u d0 d1 d2 d3 d4 d5 d6 == 0.
Proof.
  intros Hu. unfold advdiff, weno5, QUICK.
  destruct (method =? 0)%Z; [| destruct (method =? 1)%Z; [| destruct (method =? 2)%Z]].
  - generalize (b2q (Qgtb u 0) * (d3 - d2) + b2q (Qltb u 0) * (d4 - d3)).
    intros e. rewrite Hu. ring.
  - match goal with |- - u * ?e == 0 => generalize e end.
    intros e. rewrite Hu. ring.
  - match goal with |- - u * ?e == 0 => generalize e end.
    intros e. rewrite Hu. ring.
  - reflexivity.
Qed.

Lemma advdiff_no_method (method : Z) (u d0 d1 d2 d3 d4 d5 d6 : Q) :
  (method < 0 \/ 2 < method)%Z -> advdiff method u d0 d1 d2 d3 d4 d5 d6 = 0.
Proof.
  intros H. unfold advdiff.
  destruct (Z.eqb_spec method 0); [lia |].
  destruct (Z.eqb_spec method 1); [lia |].
  destruct (Z.eqb_spec method 2); [lia | reflexivity].
Qed.

(** Upwind looks at [d2], [d3] and [d4] only. *)
Lemma advdiff_upwind_flat (u d0 d1 d2 d3 d4 d5 d6 : Q) :
  d2 == d3 -> d4 == d3 -> advdiff 0 u d0 d1 d2 d3 d4 d5 d6 == 0.
Proof.
  intros H2 H4. unfold advdiff. simpl. rewrite H2, H4. ring.
Qed.

Lemma u_ref_in_extent (g : Globals) (dir i j : Z) :
  (1 <= gn g)%Z ->
  exists i' j', u_ref g dir i j = gu g (if (dir =? 0)%Z then 0 else 1)%Z i' j'
    /\ if (dir =? 0)%Z then in_x_flow (gn g) i' j' else in_y_flow (gn g) i' j'.
Proof.
  intros Hn. unfold u_ref, in_x_flow, in_y_flow.
  destruct (dir =? 0)%Z; do 2 eexists; (split; [reflexivity |]);
    rewrite !imax_max, !imin_min; lia.
Qed.

(** A velocity component that is uniform over its extent is uniform through
    [u_ref]. *)
Lemma u_ref_uniform_x (g : Globals) (a : Q) (i j : Z) :
  (1 <= gn g)%Z ->
  (forall i j, in_x_flow (gn g) i j -> gu g 0%Z i j == a) -> u_ref g 0 i j == a.
Proof.
  intros Hn H. destruct (u_ref_in_extent g 0 i j Hn) as [i' [j' [E R]]].
  rewrite E. now apply H.
Qed.

Lemma u_ref_uniform_y (g : Globals) (a : Q) (i j : Z) :
  (1 <= gn g)%Z ->
  (forall i j, in_y_flow (gn g) i j -> gu g 1%Z i j == a) -> u_ref g 1 i j == a.
Proof.
  intros Hn H. destruct (u_ref_in_extent g 1 i j Hn) as [i' [j' [E R]]].
  rewrite E. now apply H.
Qed.

Lemma c_ref_inside (g : Globals) (i j : Z) :
  in_cells (gcn g) i j -> c_ref g i j = gc g i j.
Proof.
  unfold in_cells, c_ref. intros H.
  destruct (Z.ltb_spec i 0), (Z.gtb_spec i (gcn g - 1)),
    (Z.ltb_spec j 0), (Z.gtb_spec j (gcn g - 1)); simpl; trivial; lia.
Qed.

Lemma c_ref_cases (g : Globals) (i j : Z) :
  (in_cells (gcn g) i j /\ c_ref g i j = gc g i j)
  \/ (~ in_cells (gcn g) i j /\ c_ref g i j = 0).
Proof.
  unfold in_cells, c_ref.
  destruct (Z.ltb_spec i 0), (Z.gtb_spec i (gcn g - 1)),
    (Z.ltb_spec j 0), (Z.gtb_spec j (gcn g - 1)); simpl;
    (left; split; [lia | reflexivity]) || (right; split; [lia | reflexivity]).
Qed.

Lemma c_ref_all_zero (g : Globals) (i j : Z) :
  (forall i j, in_cells (gcn g) i j -> gc g i j == 0) -> c_ref g i j == 0.
Proof.
  intros H. destruct (c_ref_cases g i j) as [[R ->] | [_ ->]];
    [now apply H | reflexivity].
Qed.

(** C7, as the code has it.  With method = Upwind the derivative of a
    velocity component that is uniform over its extent is exactly 0 at every
    point of that component, whatever the transport velocity.  The
    derivative of a uniform concentration is exactly 0 at every cell whose
    four neighbours are cells of the grid, and at every cell when the
    uniform value is 0: outside the grid [c_ref] reads 0, not the uniform
    value. *)
Theorem upwind_uniform_field (interp : Z) (u : Field) (c : Grid) (n cn : Z)
    (out : Field) (dt a : Q) :
  (1 <= n)%Z -> (1 <= cn)%Z ->
  let g := entry_globals interp u c n cn in
  let k := advect_diff g 0 u c n cn out dt in
  ((forall i j, in_x_flow n i j -> u 0%Z i j == a) ->
     forall i j, in_x_flow n i j -> k 0%Z i j == 0)
  /\ ((forall i j, in_y_flow n i j -> u 1%Z i j == a) ->
     forall i j, in_y_flow n i j -> k 1%Z i j == 0)
  /\ ((forall i j, in_cells cn i j -> c i j == a) ->
     forall i j, in_cells cn i j ->
       (1 <= i <= cn - 2 /\ 1 <= j <= cn - 2)%Z \/ a == 0 ->
       k 2%Z i j == 0).
Proof.
  intros Hn Hcn g k.
  assert (Hgn : (1 <= gn g)%Z) by exact Hn.
  split; [| split]; intros Hu i j Hij.
  - destruct (advect_diff_get g 0 u c n cn out dt i j Hn Hcn) as [E _].
    fold k in E. rewrite E.
    destruct (in_x_flow_rect n i j Hij) as [-> _].
    unfold x_flow_value.
    rewrite !advdiff_upwind_flat; [ring | | | |];
      rewrite !(u_ref_uniform_x g a) by assumption; reflexivity.
  - destruct (advect_diff_get g 0 u c n cn out dt i j Hn Hcn) as [_ [E _]].
    fold k in E. rewrite E.
    destruct (in_y_flow_rect n i j Hij) as [-> _].
    unfold y_flow_value.
    rewrite !advdiff_upwind_flat; [ring | | | |];
      rewrite !(u_ref_uniform_y g a) by assumption; reflexivity.
  - intros Hcase.
    destruct (advect_diff_get g 0 u c n cn out dt i j Hn Hcn) as [_ [_ E]].
    fold k in E. rewrite E, (in_cells_rect cn i j Hij).
    unfold concentration_value.
    destruct Hcase as [[Hi Hj] | Ha].
    + rewrite !advdiff_upwind_flat; [ring | | | |];
        rewrite !c_ref_inside by (unfold in_cells in *; simpl; lia);
        simpl; rewrite !Hu by (unfold in_cells in *; lia); reflexivity.
    + assert (Hz : forall i j, in_cells (gcn g) i j -> gc g i j == 0).
      { intros i' j' H'. simpl. rewrite <- Ha. now apply Hu. }
      rewrite !advdiff_upwind_flat; [ring | | | |];
        rewrite !c_ref_all_zero by assumption; reflexivity.
Qed.

Lemma upwind_uniform_field_witness :
  let u : Field := fun k => if (k =? 0)%Z then (fun _ _ => 3) else grid_of [[1; 2; 0; 4]; [5; 1; 1; 2]; [0; 7; 1; 1]] in
  let c : Grid := fun _ _ => 2 in
  let k := advect_diff (entry_globals 0 u c 3 3) 0 u c 3 3 (fresh_k 3 3) (1 # 10) in
  (1 <= 3)%Z /\ (1 <= 3)%Z /\ k 0%Z 3%Z 1%Z == 0 /\ k 2%Z 1%Z 1%Z == 0.
Proof.
  intros u c k. split; [lia |]. split; [lia |].
  destruct (upwind_uniform_field 0 u c 3 3 (fresh_k 3 3) (1 # 10) 3) as [Hx _];
    [lia | lia |].
  destruct (upwind_uniform_field 0 u c 3 3 (fresh_k 3 3) (1 # 10) 2) as [_ [_ Hc]];
    [lia | lia |].
  split.
  - apply Hx; [reflexivity | unfold in_x_flow; lia].
  - apply Hc; [reflexivity | unfold in_cells; lia | left; lia].
Defined.

(** C7 as stated fails on the concentration.  The concentration is 1
    everywhere, the x-velocity is 1 and the y-velocity 0: at the cell (0,0)
    the upwind neighbour (-1,0) reads 0 through [c_ref], and the derivative is
    -2. *)
Lemma upwind_uniform_concentration_counterexample :
  let u : Field := fun k => if (k =? 0)%Z then (fun _ _ => 1) else (fun _ _ => 0) in
  let c : Grid := fun _ _ => 1 in
  let k := advect_diff (entry_globals 0 u c 2 2) 0 u c 2 2 (fresh_k 2 2) (1 # 10) in
  (forall i j, c i j == 1) /\ k 2%Z 0%Z 0%Z == - (2) /\ ~ k 2%Z 0%Z 0%Z == 0.
Proof.
  intros u c k. split; [intros; reflexivity |].
  split; [vm_compute; reflexivity |]. vm_compute. discriminate.
Qed.

Lemma stage_temporaries_witness :
  let u : Field := fun k => grid_of [[1; 2; 3]; [0; 1; 5]; [2; 2; 1]] in
  let c := grid_of [[0; 1]; [3; 0]] in
  (0 < 3)%Z
  /\ exists s0 s1,
       snd (advect_trace 0 0 1 u c 2 2 (1 # 10)) = [s0; s1]
       /\ stage_u s1 0%Z 1%Z 1%Z == 1 * u 0%Z 1%Z 1%Z + (1 # 10) * stage_k s0 0%Z 1%Z 1%Z
       /\ stage_c s1 1%Z 0%Z == 0.5 * c 1%Z 0%Z + (1 # 10) * stage_k s0 2%Z 1%Z 0%Z.
Proof.
  intros u c. split; [lia |].
  destruct (stage_temporaries 0 0 u c 2 2 (1 # 10)) as [[s0 [s1 H]] _]; [lia |].
  destruct H as [E [_ [_ [_ [_ [Bu Bc]]]]]].
  exists s0, s1. split; [exact E |]. split.
  - apply (Bu 1%Z 1%Z). reflexivity.
  - apply (Bc 1%Z 0%Z). reflexivity.
Defined.

(** ** The kernels at the nodes and on a zero grid *)

Lemma monotonic_cubic_bicubic : monotonic_cubic = bicubic monotonic_cubic_4.
Proof. unfold monotonic_cubic, bicubic. reflexivity. Qed.

Lemma spline_interpolate_bicubic : spline_interpolate = bicubic spline_cubic.
Proof. unfold spline_interpolate, bicubic. reflexivity. Qed.

Lemma small_index (k : Z) : (0 <= k <= 3)%Z -> k = 0%Z \/ k = 1%Z \/ k = 2%Z \/ k = 3%Z.
Proof. lia. Qed.

Lemma gather_at (d : Grid) (w h : Z) (x y : Q) (i j : Z) :
  (0 <= i <= 3)%Z -> (0 <= j <= 3)%Z ->
  gather d w h x y (4 * j + i)%Z
  = d (imin (w - 1) (imax 0 (trunc x - 1 + i))) (imin (h - 1) (imax 0 (trunc y - 1 + j))).
Proof.
  intros Hi Hj.
  destruct (small_index i Hi) as [-> | [-> | [-> | ->]]];
    destruct (small_index j Hj) as [-> | [-> | [-> | ->]]]; reflexivity.
Qed.

Lemma rows_at (cubic : Arr -> Q -> Q) (f : Arr) (t : Q) (j : Z) :
  (0 <= j <= 3)%Z ->
  fold_left (fun xn j => astore xn j (cubic (row f j) t)) [0; 1; 2; 3]%Z uninit j
  = cubic (row f j) t.
Proof.
  intros Hj. destruct (small_index j Hj) as [-> | [-> | [-> | ->]]]; reflexivity.
Qed.

(** [max(0.0,min(width,x))] keeps a coordinate of [0, width]. *)
Lemma clamp_coordinate (x : Q) (w i : Z) :
  (0 <= i <= w)%Z -> x == inject_Z i -> fmax 0 (fmin (inject_Z w) x) == inject_Z i.
Proof.
  intros [H0 H1] Hx. apply inject_Z_le in H0, H1. change (inject_Z 0) with 0 in H0.
  destruct (fmin_cases (inject_Z w) x) as [[? ->] | [? ->]];
    [destruct (fmax_cases 0 x) as [[? ->] | [? ->]]
    | destruct (fmax_cases 0 (inject_Z w)) as [[? ->] | [? ->]]]; lra.
Qed.

(** The result of [spline_cubic] is a cubic in [x], with coefficients that
    depend on the samples only, limited to the two middle samples. *)
Lemma spline_cubic_limited (a : Arr) :
  exists b c d : Q, forall x,
    spline_cubic a x
    = fmin (fmax (a 2%Z) (a 1%Z))
        (fmax (fmin (a 1%Z) (a 2%Z)) (a 1%Z + b * x + c * x * x + d * x * x * x)).
Proof.
  unfold spline_cubic. cbv beta iota zeta delta [fold_left].
  do 3 eexists. intros x. reflexivity.
Qed.

Lemma spline_cubic_between (a : Arr) (x : Q) :
  fmin (a 1%Z) (a 2%Z) <= spline_cubic a x /\ spline_cubic a x <= fmax (a 2%Z) (a 1%Z).
Proof.
  destruct (spline_cubic_limited a) as [b [c [d E]]]. rewrite E.
  split; [| apply fmin_l].
  apply fmin_glb; [| apply fmax_l].
  pose proof (fmin_l (a 1%Z) (a 2%Z)). pose proof (fmax_r (a 2%Z) (a 1%Z)). lra.
Qed.

Lemma spline_cubic_at_0 (a : Arr) (x : Q) : x == 0 -> spline_cubic a x == a 1%Z.
Proof.
  intros Hx. destruct (spline_cubic_limited a) as [b [c [d E]]]. rewrite E.
  assert (P : a 1%Z + b * x + c * x * x + d * x * x * x == a 1%Z)
    by (rewrite Hx; ring).
  pose proof (fmin_l (a 1%Z) (a 2%Z)). pose proof (fmax_r (a 2%Z) (a 1%Z)).
  rewrite fmin_fmax_id; [exact P | lra | lra].
Qed.

Lemma spline_cubic_zero (a : Arr) (x : Q) :
  (forall k, (0 <= k <= 3)%Z -> a k == 0) -> spline_cubic a x == 0.
Proof.
  intros Ha. destruct (spline_cubic_between a x) as [Hlo Hhi].
  pose proof (Ha 1%Z ltac:(lia)) as H1. pose proof (Ha 2%Z ltac:(lia)) as H2.
  destruct (fmin_cases (a 1%Z) (a 2%Z)) as [[_ E] | [_ E]]; rewrite E in Hlo;
    destruct (fmax_cases (a 2%Z) (a 1%Z)) as [[_ F] | [_ F]]; rewrite F in Hhi; lra.
Qed.

Lemma monotonic_cubic_4_at_0 (a : Arr) (x : Q) :
  x == 0 -> monotonic_cubic_4 a x == a 1%Z.
Proof.
  intros Hx. unfold monotonic_cubic_4.
  destruct (Qeq_bool (a 2%Z - a 1%Z) 0); cbv beta iota zeta; rewrite Hx; ring.
Qed.

(** Two equal middle samples make the cubic constant. *)
Lemma monotonic_cubic_4_flat (a : Arr) (x : Q) :
  a 2%Z == a 1%Z -> monotonic_cubic_4 a x == a 1%Z.
Proof.
  intros H. unfold monotonic_cubic_4.
  destruct (Qeq_bool (a 2%Z - a 1%Z) 0) eqn:E; cbv beta iota zeta.
  - rewrite H. ring.
  - apply Qeq_bool_neq in E. exfalso. apply E. rewrite H. ring.
Qed.

Lemma monotonic_cubic_4_zero (a : Arr) (x : Q) :
  (forall k, (0 <= k <= 3)%Z -> a k == 0) -> monotonic_cubic_4 a x == 0.
Proof.
  intros Ha. rewrite monotonic_cubic_4_flat.
  - apply Ha. lia.
  - rewrite !Ha by lia. reflexivity.
Qed.

Section Bicubic.
Variable cubic : Arr -> Q -> Q.
Hypothesis cubic_at_0 : forall a x, x == 0 -> cubic a x == a 1%Z.
Hypothesis cubic_zero :
  forall a x, (forall k, (0 <= k <= 3)%Z -> a k == 0) -> cubic a x == 0.

Lemma bicubic_exact : exact_at_nodes (bicubic cubic).
Proof.
  intros d w h x y i j Hi Hj Hx Hy. unfold bicubic.
  pose proof (clamp_coordinate x w i ltac:(lia) Hx) as HX.
  pose proof (clamp_coordinate y h j ltac:(lia) Hy) as HY.
  set (X := fmax 0 (fmin (inject_Z w) x)) in *.
  set (Y := fmax 0 (fmin (inject_Z h) y)) in *.
  pose proof (trunc_eq_Z X i HX) as TX. pose proof (trunc_eq_Z Y j HY) as TY.
  rewrite cubic_at_0 by (rewrite TY, HY; ring).
  rewrite rows_at by lia.
  rewrite cubic_at_0 by (rewrite TX, HX; ring).
  unfold row. rewrite (gather_at d w h X Y 1 1) by lia.
  rewrite TX, TY, !imax_max, !imin_min.
  replace (Z.min (w - 1) (Z.max 0 (i - 1 + 1))) with i by lia.
  replace (Z.min (h - 1) (Z.max 0 (j - 1 + 1))) with j by lia.
  reflexivity.
Qed.

Lemma bicubic_zero : vanishes_on_zero (bicubic cubic).
Proof.
  intros d w h x y Hd. unfold bicubic. apply cubic_zero. intros k Hk.
  rewrite rows_at by assumption. apply cubic_zero. intros k' Hk'.
  unfold row. rewrite gather_at by assumption. apply Hd.
Qed.
End Bicubic.

Lemma spline_interpolate_exact : exact_at_nodes spline_interpolate.
Proof.
  rewrite spline_interpolate_bicubic. apply bicubic_exact, spline_cubic_at_0.
Qed.

Lemma spline_interpolate_zero : vanishes_on_zero spline_interpolate.
Proof.
  rewrite spline_interpolate_bicubic. apply bicubic_zero, spline_cubic_zero.
Qed.

Lemma monotonic_cubic_exact : exact_at_nodes monotonic_cubic.
Proof.
  rewrite monotonic_cubic_bicubic. apply bicubic_exact, monotonic_cubic_4_at_0.
Qed.

Lemma monotonic_cubic_zero : vanishes_on_zero monotonic_cubic.
Proof.
  rewrite monotonic_cubic_bicubic. apply bicubic_zero, monotonic_cubic_4_zero.
Qed.

(** The weights of a linear interpolation at a node: the node is either the
    left or the right end of the interval the code picks. *)
Lemma lerp_node (X : Q) (i t : Z) (f : Z -> Q) :
  X == inject_Z i -> t = i \/ (t + 1)%Z = i ->
  (inject_Z (t + 1) - X) * f t + (X - inject_Z t) * f (t + 1)%Z == f i.
Proof.
  intros HX [-> | <-]; rewrite HX, ?inject_Z_plus; simpl (inject_Z 1); ring.
Qed.

(** The interval that [linear_interpolate] picks for a node: itself, or the
    one before for the last node. *)
Lemma linear_cell (X : Q) (w i : Z) :
  (0 <= i <= w - 1)%Z -> X == inject_Z i ->
  let t := trunc (fmin X (inject_Z (w - 2))) in t = i \/ (t + 1)%Z = i.
Proof.
  intros Hi HX t. subst t.
  destruct (fmin_cases X (inject_Z (w - 2))) as [[Hlt ->] | [Hle ->]].
  - rewrite trunc_inject_Z. right.
    assert (inject_Z (w - 2) < inject_Z i) by lra.
    rewrite <- Zlt_Qlt in H. lia.
  - left. now apply trunc_eq_Z.
Qed.

Lemma linear_interpolate_exact : exact_at_nodes linear_interpolate.
Proof.
  intros d w h x y i j Hi Hj Hx Hy. unfold linear_interpolate.
  pose proof (clamp_coordinate x w i ltac:(lia) Hx) as HX.
  pose proof (clamp_coordinate y h j ltac:(lia) Hy) as HY.
  set (X := fmax 0 (fmin (inject_Z w) x)) in *.
  set (Y := fmax 0 (fmin (inject_Z h) y)) in *.
  pose proof (linear_cell X w i Hi HX) as Ti.
  pose proof (linear_cell Y h j Hj HY) as Tj.
  cbv zeta in Ti, Tj.
  set (ti := trunc (fmin X (inject_Z (w - 2)))) in *.
  set (tj := trunc (fmin Y (inject_Z (h - 2)))) in *.
  pose proof (lerp_node X i ti (fun k => d k tj) HX Ti) as E1.
  pose proof (lerp_node X i ti (fun k => d k (tj + 1)%Z) HX Ti) as E2.
  cbv beta in E1, E2. rewrite E1, E2.
  pose proof (lerp_node Y j tj (fun k => d i k) HY Tj) as E3.
  cbv beta in E3. rewrite <- E3. ring.
Qed.

Lemma linear_interpolate_zero : vanishes_on_zero linear_interpolate.
Proof.
  intros d w h x y Hd. unfold linear_interpolate. cbv zeta.
  rewrite !Hd. ring.
Qed.

(** Whatever the selector, the kernel chosen on entry is exact at the nodes
    and vanishes on a zero grid. *)
Lemma entry_kernel_exact (interp : Z) (u : Field) (c : Grid) (n cn : Z) :
  exact_at_nodes (interp_func (entry_globals interp u c n cn)).
Proof.
  unfold entry_globals. simpl.
  destruct (interp =? 0)%Z; [apply linear_interpolate_exact |].
  destruct (interp =? 1)%Z;
    [apply spline_interpolate_exact | apply monotonic_cubic_exact].
Qed.

Lemma entry_kernel_zero (interp : Z) (u : Field) (c : Grid) (n cn : Z) :
  vanishes_on_zero (interp_func (entry_globals interp u c n cn)).
Proof.
  unfold entry_globals. simpl.
  destruct (interp =? 0)%Z; [apply linear_interpolate_zero |].
  destruct (interp =? 1)%Z;
    [apply spline_interpolate_zero | apply monotonic_cubic_zero].
Qed.

(** ** The velocities on the faces and at the cell centres *)

Ltac fstore_grids :=
  cbv zeta;
  repeat first
    [ rewrite fstore_same
    | rewrite fstore_other_cell by assumption
    | rewrite fstore_other_grid by (discriminate || assumption) ].

Lemma cell_velocity_get (u : Field) (n k i j : Z) :
  (1 <= n)%Z ->
  cell_velocity u n k i j
  = if in_rect n n i j
    then if (k =? 0)%Z then 0.5 * u 0%Z i j + 0.5 * u 0%Z (i + 1)%Z j
         else if (k =? 1)%Z then 0.5 * u 1%Z i j + 0.5 * u 1%Z i (j + 1)%Z
         else 0
    else 0.
Proof.
  intros Hn. unfold cell_velocity, FOR_EVERY_CELL.
  destruct (Z.eqb_spec k 0) as [-> | K0]; [| destruct (Z.eqb_spec k 1) as [-> | K1]].
  - rewrite (for_cells_get (fun s : Field => s 0%Z) _
               (fun i j => 0.5 * u 0%Z i j + 0.5 * u 0%Z (i + 1)%Z j));
      try lia; try (intros; now fstore_grids).
  - rewrite (for_cells_get (fun s : Field => s 1%Z) _
               (fun i j => 0.5 * u 1%Z i j + 0.5 * u 1%Z i (j + 1)%Z));
      try lia; try (intros; now fstore_grids).
  - rewrite (for_cells_frame (fun s : Field => s k))
      by (intros; now fstore_grids).
    now destruct (in_rect n n i j).
Qed.

Lemma face_velocity_x_get (g : Globals) (u : Field) (n k i j : Z) :
  (1 <= n)%Z ->
  face_velocity_x g u n k i j
  = if in_rect (n + 1) n i j
    then if (k =? 0)%Z then u 0%Z i j
         else if (k =? 1)%Z
         then (u_ref g 1 (i - 1) j + u_ref g 1 i j
               + u_ref g 1 (i - 1) (j + 1) + u_ref g 1 i (j + 1)) / 4
         else 0
    else 0.
Proof.
  intros Hn. unfold face_velocity_x, FOR_EVERY_X_FLOW.
  destruct (Z.eqb_spec k 0) as [-> | K0]; [| destruct (Z.eqb_spec k 1) as [-> | K1]].
  - rewrite (for_cells_get (fun s : Field => s 0%Z) _ (fun i j => u 0%Z i j));
      try lia; try (intros; now fstore_grids).
  - rewrite (for_cells_get (fun s : Field => s 1%Z) _
               (fun i j => (u_ref g 1 (i - 1) j + u_ref g 1 i j
                 + u_ref g 1 (i - 1) (j + 1) + u_ref g 1 i (j + 1)) / 4));
      try lia; try (intros; now fstore_grids).
  - rewrite (for_cells_frame (fun s : Field => s k))
      by (intros; now fstore_grids).
    now destruct (in_rect (n + 1) n i j).
Qed.

Lemma face_velocity_y_get (g : Globals) (u : Field) (n k i j : Z) :
  (1 <= n)%Z ->
  face_velocity_y g u n k i j
  = if in_rect n (n + 1) i j
    then if (k =? 0)%Z
         then (u_ref g 0 i (j - 1) + u_ref g 0 i j
               + u_ref g 0 (i + 1) j + u_ref g 0 (i + 1) (j - 1)) / 4
         else if (k =? 1)%Z then u 1%Z i j
         else 0
    else 0.
Proof.
  intros Hn. unfold face_velocity_y, FOR_EVERY_Y_FLOW.
  destruct (Z.eqb_spec k 0) as [-> | K0]; [| destruct (Z.eqb_spec k 1) as [-> | K1]].
  - rewrite (for_cells_get (fun s : Field => s 0%Z) _
               (fun i j => (u_ref g 0 i (j - 1) + u_ref g 0 i j
                 + u_ref g 0 (i + 1) j + u_ref g 0 (i + 1) (j - 1)) / 4));
      try lia; try (intros; now fstore_grids).
  - rewrite (for_cells_get (fun s : Field => s 1%Z) _ (fun i j => u 1%Z i j));
      try lia; try (intros; now fstore_grids).
  - rewrite (for_cells_frame (fun s : Field => s k))
      by (intros; now fstore_grids).
    now destruct (in_rect n (n + 1) i j).
Qed.

Lemma concentration_velocity_get (g : Globals) (up : Field) (n cn k i j : Z) :
  (1 <= cn)%Z ->
  concentration_velocity g up n cn k i j
  = if in_rect cn cn i j
    then if (k =? 0)%Z
         then interp_func g (up 0%Z) n n
                (inject_Z (i * n) / inject_Z cn) (inject_Z (j * n) / inject_Z cn)
         else if (k =? 1)%Z
         then interp_func g (up 1%Z) n n
                (inject_Z (i * n) / inject_Z cn) (inject_Z (j * n) / inject_Z cn)
         else 0
    else 0.
Proof.
  intros Hn. unfold concentration_velocity, FOR_EVERY_CELL.
  destruct (Z.eqb_spec k 0) as [-> | K0]; [| destruct (Z.eqb_spec k 1) as [-> | K1]].
  - rewrite (for_cells_get (fun s : Field => s 0%Z) _
               (fun i j => interp_func g (up 0%Z) n n
                  (inject_Z (i * n) / inject_Z cn) (inject_Z (j * n) / inject_Z cn)));
      try lia; try (intros; now fstore_grids).
  - rewrite (for_cells_get (fun s : Field => s 1%Z) _
               (fun i j => interp_func g (up 1%Z) n n
                  (inject_Z (i * n) / inject_Z cn) (inject_Z (j * n) / inject_Z cn)));
      try lia; try (intros; now fstore_grids).
  - rewrite (for_cells_frame (fun s : Field => s k))
      by (intros; now fstore_grids).
    now destruct (in_rect cn cn i j).
Qed.

Lemma cell_velocity_zero (u : Field) (n : Z) :
  (1 <= n)%Z -> zero_velocity n u -> forall k i j, cell_velocity u n k i j == 0.
Proof.
  intros Hn [Zx Zy] k i j. rewrite cell_velocity_get by assumption.
  destruct (in_rect n n i j) eqn:R; [| reflexivity].
  apply in_rect_true in R.
  destruct (k =? 0)%Z; [| destruct (k =? 1)%Z; [| reflexivity]].
  - rewrite !Zx by (unfold in_x_flow; lia). ring.
  - rewrite !Zy by (unfold in_y_flow; lia). ring.
Qed.

Lemma face_velocity_x_zero (g : Globals) (u : Field) (n : Z) :
  (1 <= n)%Z -> gn g = n -> zero_velocity n (gu g) -> zero_velocity n u ->
  forall k i j, face_velocity_x g u n k i j == 0.
Proof.
  intros Hn Hg [_ Gy] [Zx _] k i j. subst n.
  rewrite face_velocity_x_get by assumption.
  destruct (in_rect (gn g + 1) (gn g) i j) eqn:R; [| reflexivity].
  apply in_rect_true in R.
  destruct (k =? 0)%Z; [| destruct (k =? 1)%Z; [| reflexivity]].
  - apply Zx. unfold in_x_flow. lia.
  - rewrite !(u_ref_uniform_y g 0) by assumption. reflexivity.
Qed.

Lemma face_velocity_y_zero (g : Globals) (u : Field) (n : Z) :
  (1 <= n)%Z -> gn g = n -> zero_velocity n (gu g) -> zero_velocity n u ->
  forall k i j, face_velocity_y g u n k i j == 0.
Proof.
  intros Hn Hg [Gx _] [_ Zy] k i j. subst n.
  rewrite face_velocity_y_get by assumption.
  destruct (in_rect (gn g) (gn g + 1) i j) eqn:R; [| reflexivity].
  apply in_rect_true in R.
  destruct (k =? 0)%Z; [| destruct (k =? 1)%Z; [| reflexivity]].
  - rewrite !(u_ref_uniform_x g 0) by assumption. reflexivity.
  - apply Zy. unfold in_y_flow. lia.
Qed.

Lemma concentration_velocity_zero (g : Globals) (up : Field) (n cn : Z) :
  (1 <= cn)%Z -> vanishes_on_zero (interp_func g) ->
  (forall k i j, up k i j == 0) ->
  forall k i j, concentration_velocity g up n cn k i j == 0.
Proof.
  intros Hcn HK Hup k i j. rewrite concentration_velocity_get by assumption.
  destruct (in_rect cn cn i j); [| reflexivity].
  destruct (k =? 0)%Z; [| destruct (k =? 1)%Z; [| reflexivity]];
    apply HK; intros; apply Hup.
Qed.

(** ** Backward traces of length zero *)

Lemma semiLagrangian_get (g : Globals) (d d0 : Grid) (w h : Z) (u : Field)
    (dt : Q) (i j : Z) :
  (0 < w)%Z -> (0 <= h)%Z ->
  semiLagrangian g d d0 w h u dt i j
  = if in_rect w h i j
    then interp_func g d0 w h
           (inject_Z i - inject_Z (gn g) * u 0%Z i j * dt)
           (inject_Z j - inject_Z (gn g) * u 1%Z i j * dt)
    else d i j.
Proof.
  intros Hw Hh. unfold semiLagrangian.
  apply (for_cells_get (fun s : Grid => s) _
           (fun i j => interp_func g d0 w h
              (inject_Z i - inject_Z (gn g) * u 0%Z i j * dt)
              (inject_Z j - inject_Z (gn g) * u 1%Z i j * dt))); trivial.
  - intros. apply store_same.
  - intros. now apply store_other.
Qed.

Lemma motionless_cell (dt s : Q) (v : Field) (k i j : Z) :
  motionless dt v -> dt * s * v k i j == 0.
Proof. intros [H | H]; [rewrite H | rewrite (H k i j)]; ring. Qed.

Lemma motionless_kernel (K : Kernel) (dt s : Q) (v : Field) (k w h : Z) (x y : Q) :
  vanishes_on_zero K -> motionless dt v -> dt * s * K (v k) w h x y == 0.
Proof.
  intros HK [H | H].
  - rewrite H. ring.
  - rewrite (HK (v k) w h x y) by (intros; apply H). ring.
Qed.

Lemma semiLagrangian_still (g : Globals) (d d0 : Grid) (w h : Z) (u : Field)
    (dt : Q) (i j : Z) :
  exact_at_nodes (interp_func g) -> motionless dt u ->
  in_rect w h i j = true ->
  semiLagrangian g d d0 w h u dt i j == d0 i j.
Proof.
  intros HK Hm R. pose proof R as R'. apply in_rect_true in R'.
  rewrite semiLagrangian_get, R by lia.
  apply HK; try lia.
  - pose proof (motionless_cell dt (inject_Z (gn g)) u 0 i j Hm) as E.
    assert (E' : inject_Z (gn g) * u 0%Z i j * dt == 0) by (rewrite <- E; ring).
    rewrite E'. ring.
  - pose proof (motionless_cell dt (inject_Z (gn g)) u 1 i j Hm) as E.
    assert (E' : inject_Z (gn g) * u 1%Z i j * dt == 0) by (rewrite <- E; ring).
    rewrite E'. ring.
Qed.

Lemma fmin4_le (a b c e v : Q) :
  v = a \/ v = b \/ v = c \/ v = e -> fmin (fmin (fmin a b) c) e <= v.
Proof.
  pose proof (fmin_l (fmin (fmin a b) c) e). pose proof (fmin_r (fmin (fmin a b) c) e).
  pose proof (fmin_l (fmin a b) c). pose proof (fmin_r (fmin a b) c).
  pose proof (fmin_l a b). pose proof (fmin_r a b).
  intros [-> | [-> | [-> | ->]]]; lra.
Qed.

Lemma fmax4_ge (a b c e v : Q) :
  v = a \/ v = b \/ v = c \/ v = e -> v <= fmax (fmax (fmax a b) c) e.
Proof.
  pose proof (fmax_l (fmax (fmax a b) c) e). pose proof (fmax_r (fmax (fmax a b) c) e).
  pose proof (fmax_l (fmax a b) c). pose proof (fmax_r (fmax a b) c).
  pose proof (fmax_l a b). pose proof (fmax_r a b).
  intros [-> | [-> | [-> | ->]]]; lra.
Qed.

(** The cell that [corner] picks for a node has the node as a corner. *)
Lemma corner_node (extent i : Z) (x : Q) :
  (0 <= i <= extent - 1)%Z -> x == inject_Z i ->
  corner extent x = i \/ (corner extent x + 1)%Z = i.
Proof.
  intros Hi Hx. unfold corner. rewrite (trunc_eq_Z x i Hx), imax_max, imin_min. lia.
Qed.

Lemma trace_still (lim e : Q) (i : Z) :
  0 <= inject_Z i -> inject_Z i <= lim -> e == inject_Z i ->
  fmin lim (fmax 0 e) == inject_Z i.
Proof.
  intros H0 H1 He. rewrite fmin_fmax_id; [exact He | lra | lra].
Qed.

Lemma maccormack_still (g : Globals) (d d0 : Grid) (w h : Z) (u : Field)
    (dt : Q) (i j : Z) :
  exact_at_nodes (interp_func g) -> vanishes_on_zero (interp_func g) ->
  motionless dt u -> in_rect w h i j = true ->
  maccormack g d d0 w h u dt i j == d0 i j.
Proof.
  intros HK HZ Hm R. pose proof R as R'. apply in_rect_true in R'.
  destruct R' as [Ri Rj].
  rewrite maccormack_get, R by lia. unfold maccormack_value.
  assert (HX : trace_x g w u dt i j == inject_Z i).
  { unfold trace_x. apply trace_still.
    - change 0 with (inject_Z 0). apply inject_Z_le. lia.
    - apply inject_Z_le. lia.
    - rewrite (motionless_cell dt (inject_Z (gn g)) u 0 i j Hm). ring. }
  assert (HY : trace_y g h u dt i j == inject_Z j).
  { unfold trace_y. apply trace_still.
    - change 0 with (inject_Z 0). apply inject_Z_le. lia.
    - apply inject_Z_le. lia.
    - rewrite (motionless_cell dt (inject_Z (gn g)) u 1 i j Hm). ring. }
  set (X := trace_x g w u dt i j) in *. set (Y := trace_y g h u dt i j) in *.
  pose proof (corner_node w i X ltac:(lia) HX) as Ci.
  pose proof (corner_node h j Y ltac:(lia) HY) as Cj.
  set (i0 := corner w X) in *. set (j0 := corner h Y) in *.
  set (r := _ + 0.5 * _).
  assert (Hr : r == d0 i j).
  { subst r.
    rewrite (HK d0 w h X Y i j) by (lia || assumption).
    rewrite (HK d0 w h _ _ i j); try lia; [ring | |].
    - rewrite (motionless_kernel _ dt (inject_Z (gn g)) u 0 w h X Y HZ Hm), HX. ring.
    - rewrite (motionless_kernel _ dt (inject_Z (gn g)) u 1 w h X Y HZ Hm), HY. ring. }
  assert (Hin : d0 i j = d0 i0 j0 \/ d0 i j = d0 (i0 + 1)%Z j0
                \/ d0 i j = d0 i0 (j0 + 1)%Z \/ d0 i j = d0 (i0 + 1)%Z (j0 + 1)%Z).
  { clear - Ci Cj. clearbody i0 j0.
    destruct Ci as [<- | <-], Cj as [<- | <-]; auto. }
  pose proof (fmin4_le _ _ _ _ _ Hin) as Hlo. pose proof (fmax4_ge _ _ _ _ _ Hin) as Hhi.
  rewrite fmax_fmin_id; [exact Hr | rewrite Hr; exact Hlo | rewrite Hr; exact Hhi].
Qed.

(** ** Fields that a timestep leaves as they were *)

Lemma same_fields_refl (n cn : Z) (u : Field) (c : Grid) :
  same_fields n cn (u, c) u c.
Proof. repeat split; intros; reflexivity. Qed.

Lemma add_stage_same (n cn : Z) (r : Field * Grid) (k : Field) (b : Q)
    (u : Field) (c : Grid) :
  same_fields n cn r u c -> b == 0 \/ flat n cn k ->
  same_fields n cn (add_stage r k b n cn) u c.
Proof.
  intros [Sx [Sy Sc]] Hk. unfold add_stage, same_fields. cbn [fst snd].
  assert (Z : forall m i j,
    (m = 0%Z /\ in_x_flow n i j) \/ (m = 1%Z /\ in_y_flow n i j)
    \/ (m = 2%Z /\ in_cells cn i j) -> b * k m i j == 0).
  { intros m i j Hm. destruct Hk as [Hb | [Kx [Ky Kc]]]; [rewrite Hb; ring |].
    destruct Hm as [[-> H] | [[-> H] | [-> H]]];
      [rewrite (Kx i j H) | rewrite (Ky i j H) | rewrite (Kc i j H)]; ring. }
  split; [| split]; intros i j Hij.
  - destruct (in_x_flow_rect n i j Hij) as [_ R].
    unfold fset. simpl. rewrite op2D_in by assumption.
    rewrite (Z 0%Z i j) by auto. rewrite (Sx i j Hij). ring.
  - destruct (in_y_flow_rect n i j Hij) as [_ R].
    unfold fset. simpl. rewrite op2D_in by assumption.
    rewrite (Z 1%Z i j) by auto. rewrite (Sy i j Hij). ring.
  - pose proof (in_cells_rect cn i j Hij) as R.
    rewrite op2D_in by assumption.
    rewrite (Z 2%Z i j) by auto. rewrite (Sc i j Hij). ring.
Qed.

Lemma copy_fields_same (n cn : Z) (u o : Field) (c : Grid) :
  (forall i j, in_x_flow n i j -> o 0%Z i j == u 0%Z i j) ->
  (forall i j, in_y_flow n i j -> o 1%Z i j == u 1%Z i j) ->
  (forall i j, in_cells cn i j -> o 2%Z i j == c i j) ->
  same_fields n cn
    (fset (fset u 0 (copy2D (u 0%Z) (o 0%Z) (n + 1))) 1
       (copy2D (u 1%Z) (o 1%Z) (n + 1)),
     copy2D c (o 2%Z) cn) u c.
Proof.
  intros Hx Hy Hc. unfold same_fields. cbn [fst snd].
  split; [| split]; intros i j Hij.
  - destruct (in_x_flow_rect n i j Hij) as [_ R].
    unfold fset, copy2D. simpl. rewrite R. now apply Hx.
  - destruct (in_y_flow_rect n i j Hij) as [_ R].
    unfold fset, copy2D. simpl. rewrite R. now apply Hy.
  - pose proof (in_cells_rect cn i j Hij) as R.
    unfold copy2D. rewrite R. now apply Hc.
Qed.

(** The Eulerian branch of [advect], stage by stage. *)
Lemma advect_eulerian (method interp integrator : Z) (u : Field) (c : Grid)
    (n cn : Z) (dt : Q) :
  (method < 3)%Z ->
  let g := entry_globals interp u c n cn in
  let f := fun ua ca => advect_diff g method ua ca n cn (fresh_k n cn) dt in
  let t := fun k b => stage_state (fresh_k n cn) u c k b n cn in
  advect method interp integrator u c n cn dt
  = if (integrator =? 0)%Z then
      add_stage (u, c) (f u c) dt n cn
    else if (integrator =? 1)%Z then
      let k0 := f u c in
      let t1 := t k0 dt in
      let k1 := f t1 (t1 2%Z) in
      add_stage (add_stage (u, c) k0 (0.5 * dt) n cn) k1 (0.5 * dt) n cn
    else if (integrator =? 2)%Z then
      let k0 := f u c in
      let t1 := t k0 (0.5 * dt) in
      let k1 := f t1 (t1 2%Z) in
      let t2 := stage_state t1 u c k1 (0.5 * dt) n cn in
      let k2 := f t2 (t2 2%Z) in
      let t3 := stage_state t2 u c k2 dt n cn in
      let k3 := f t3 (t3 2%Z) in
      add_stage (add_stage (add_stage (add_stage (u, c)
        k0 (dt / 6) n cn) k1 (dt / 3) n cn) k2 (dt / 3) n cn) k3 (dt / 6) n cn
    else (u, c).
Proof.
  intros Hm g f t. pose proof Hm as Hb. apply Z.ltb_lt in Hb.
  unfold advect, advect_trace. rewrite Hb.
  destruct (integrator =? 0)%Z; [| destruct (integrator =? 1)%Z;
    [| destruct (integrator =? 2)%Z; [| reflexivity]]].
  - cbv beta iota zeta. next_stage g1 k0.
    rewrite advect_step_eulerian in Hk by assumption. subst k0. reflexivity.
  - cbv beta iota zeta. next_stage g1 k0. next_stage g2 k1.
    rewrite advect_step_eulerian in Hk, Hk0 by assumption. subst k0 k1.
    reflexivity.
  - cbv beta iota zeta. next_stage g1 k0. next_stage g2 k1.
    next_stage g3 k2. next_stage g4 k3.
    rewrite advect_step_eulerian in Hk, Hk0, Hk1, Hk2 by assumption.
    subst k0 k1 k2 k3. reflexivity.
Qed.

Lemma flat_no_method (g : Globals) (method : Z) (u : Field) (c : Grid)
    (n cn : Z) (out : Field) (dt : Q) :
  (1 <= n)%Z -> (1 <= cn)%Z -> (method < 0)%Z ->
  flat n cn (advect_diff g method u c n cn out dt).
Proof.
  intros Hn Hcn Hm. unfold flat. split; [| split]; intros i j Hij.
  - destruct (advect_diff_get g method u c n cn out dt i j Hn Hcn) as [E _].
    rewrite E. destruct (in_x_flow_rect n i j Hij) as [-> _].
    unfold x_flow_value. rewrite !advdiff_no_method by lia. ring.
  - destruct (advect_diff_get g method u c n cn out dt i j Hn Hcn) as [_ [E _]].
    rewrite E. destruct (in_y_flow_rect n i j Hij) as [-> _].
    unfold y_flow_value. rewrite !advdiff_no_method by lia. ring.
  - destruct (advect_diff_get g method u c n cn out dt i j Hn Hcn) as [_ [_ E]].
    rewrite E, (in_cells_rect cn i j Hij).
    unfold concentration_value. rewrite !advdiff_no_method by lia. ring.
Qed.

Lemma flat_zero_velocity (g : Globals) (method : Z) (u : Field) (c : Grid)
    (n cn : Z) (out : Field) (dt : Q) :
  (1 <= n)%Z -> (1 <= cn)%Z -> gn g = n ->
  zero_velocity n (gu g) -> zero_velocity n u ->
  flat n cn (advect_diff g method u c n cn out dt).
Proof.
  intros Hn Hcn Hg [Gx Gy] [Zx Zy]. subst n.
  unfold flat. split; [| split]; intros i j Hij.
  - destruct (advect_diff_get g method u c (gn g) cn out dt i j Hn Hcn) as [E _].
    rewrite E. destruct (in_x_flow_rect (gn g) i j Hij) as [-> _].
    unfold x_flow_value.
    rewrite !advdiff_no_velocity; [ring | | ].
    + rewrite !(u_ref_uniform_y g 0) by assumption. reflexivity.
    + now apply Zx.
  - destruct (advect_diff_get g method u c (gn g) cn out dt i j Hn Hcn) as [_ [E _]].
    rewrite E. destruct (in_y_flow_rect (gn g) i j Hij) as [-> _].
    unfold y_flow_value.
    rewrite !advdiff_no_velocity; [ring | | ].
    + now apply Zy.
    + rewrite !(u_ref_uniform_x g 0) by assumption. reflexivity.
  - destruct (advect_diff_get g method u c (gn g) cn out dt i j Hn Hcn) as [_ [_ E]].
    rewrite E, (in_cells_rect cn i j Hij).
    unfold concentration_value.
    rewrite !advdiff_no_velocity; [ring | | ];
      apply linear_interpolate_zero; intros;
      apply cell_velocity_zero; (assumption || now split).
Qed.

Lemma stage_state_zero (tmp0 u : Field) (c : Grid) (k : Field) (b : Q) (n cn : Z) :
  zero_velocity n u -> flat n cn k ->
  zero_velocity n (stage_state tmp0 u c k b n cn).
Proof.
  intros [Zx Zy] [Kx [Ky _]]. unfold stage_state, zero_velocity.
  split; intros i j Hij.
  - destruct (in_x_flow_rect n i j Hij) as [_ R].
    unfold fset. simpl. rewrite op2D_in by assumption.
    rewrite (Zx i j Hij), (Kx i j Hij). ring.
  - destruct (in_y_flow_rect n i j Hij) as [_ R].
    unfold fset. simpl. rewrite op2D_in by assumption.
    rewrite (Zy i j Hij), (Ky i j Hij). ring.
Qed.

(** The Eulerian branch leaves the fields as they were when the timestep is
    0, or when every stage result is 0 over the extents; the latter holds for
    a stage as soon as the velocity it is given has the property [I], which
    the temporary states inherit. *)
Lemma eulerian_same (I : Field -> Prop) (method interp integrator : Z)
    (u : Field) (c : Grid) (n cn : Z) (dt : Q) :
  (method < 3)%Z ->
  let g := entry_globals interp u c n cn in
  dt == 0
  \/ (I u
      /\ (forall ua ca out, I ua -> flat n cn (advect_diff g method ua ca n cn out dt))
      /\ (forall tmp0 k b, flat n cn k -> I (stage_state tmp0 u c k b n cn))) ->
  same_fields n cn (advect method interp integrator u c n cn dt) u c.
Proof.
  intros Hm g H.
  pose proof (advect_eulerian method interp integrator u c n cn dt Hm) as E.
  cbv zeta in E. fold g in E.
  rewrite E. clear E.
  destruct H as [Hd | [Iu [Hf Hs]]].
  - destruct (integrator =? 0)%Z; [| destruct (integrator =? 1)%Z;
      [| destruct (integrator =? 2)%Z; [| apply same_fields_refl]]];
      repeat (apply add_stage_same; [| left; rewrite Hd; reflexivity]);
      apply same_fields_refl.
  - destruct (integrator =? 0)%Z; [| destruct (integrator =? 1)%Z;
      [| destruct (integrator =? 2)%Z; [| apply same_fields_refl]]].
    + apply add_stage_same; [apply same_fields_refl | right; now apply Hf].
    + pose proof (Hf u c (fresh_k n cn) Iu) as F0.
      pose proof (Hs (fresh_k n cn) _ dt F0) as I1.
      apply add_stage_same; [apply add_stage_same; [apply same_fields_refl |] |];
        right; [exact F0 | now apply Hf].
    + set (k0 := advect_diff g method u c n cn (fresh_k n cn) dt).
      set (t1 := stage_state (fresh_k n cn) u c k0 (0.5 * dt) n cn).
      set (k1 := advect_diff g method t1 (t1 2%Z) n cn (fresh_k n cn) dt).
      set (t2 := stage_state t1 u c k1 (0.5 * dt) n cn).
      set (k2 := advect_diff g method t2 (t2 2%Z) n cn (fresh_k n cn) dt).
      set (t3 := stage_state t2 u c k2 dt n cn).
      set (k3 := advect_diff g method t3 (t3 2%Z) n cn (fresh_k n cn) dt).
      assert (F0 : flat n cn k0) by (apply Hf, Iu).
      assert (F1 : flat n cn k1) by (apply Hf, Hs, F0).
      assert (F2 : flat n cn k2) by (apply Hf, Hs, F1).
      assert (F3 : flat n cn k3) by (apply Hf, Hs, F2).
      repeat (apply add_stage_same; [| right]);
        [apply same_fields_refl | exact F0 | exact F1 | exact F2 | exact F3].
Qed.

(** The other branch of [advect]: one evaluation, copied into the fields
    whatever the integrator. *)
Lemma advect_semi_family (method interp integrator : Z) (u : Field) (c : Grid)
    (n cn : Z) (dt : Q) :
  (3 <= method)%Z ->
  advect method interp integrator u c n cn dt
  = let o := snd (advect_semiLagrangian (entry_globals interp u c n cn)
                    method u c n cn (fresh_k n cn) dt) in
    (fset (fset u 0 (copy2D (u 0%Z) (o 0%Z) (n + 1))) 1
       (copy2D (u 1%Z) (o 1%Z) (n + 1)),
     copy2D c (o 2%Z) cn).
Proof.
  intros Hm. assert (Hb : (method <? 3)%Z = false) by (apply Z.ltb_ge; lia).
  unfold advect, advect_trace, advect_step. rewrite Hb.
  fold (entry_globals interp u c n cn). fold (fresh_k n cn).
  destruct (advect_semiLagrangian _ method u c n cn _ dt) as [g1 o].
  reflexivity.
Qed.

Lemma semi_outputs_order1 (g : Globals) (method : Z) (u : Field) (c : Grid)
    (n cn : Z) (out : Field) (dt : Q) :
  method <> 4%Z ->
  snd (advect_semiLagrangian g method u c n cn out dt)
  = fset (fset (fset out 0
      (semiLagrangian g (out 0%Z) (u 0%Z) (n + 1) n (face_velocity_x g u n) dt)) 1
      (semiLagrangian g (out 1%Z) (u 1%Z) n (n + 1) (face_velocity_y g u n) dt)) 2
      (semiLagrangian g (out 2%Z) c cn cn
         (concentration_velocity g (cell_velocity u n) n cn) dt).
Proof.
  intros Hm. unfold advect_semiLagrangian.
  destruct (method =? 3)%Z; [reflexivity |].
  apply Z.eqb_neq in Hm. rewrite Hm. reflexivity.
Qed.

Lemma semi_outputs_order2 (g : Globals) (u : Field) (c : Grid)
    (n cn : Z) (out : Field) (dt : Q) :
  let g' := set_interp_func g spline_interpolate in
  snd (advect_semiLagrangian g 4 u c n cn out dt)
  = fset (fset (fset out 0
      (maccormack g' (out 0%Z) (u 0%Z) (n + 1) n (face_velocity_x g' u n) dt)) 1
      (maccormack g' (out 1%Z) (u 1%Z) n (n + 1) (face_velocity_y g' u n) dt)) 2
      (maccormack g' (out 2%Z) c cn cn
         (concentration_velocity g' (cell_velocity u n) n cn) dt).
Proof. reflexivity. Qed.

Lemma motionless_projections (g : Globals) (u : Field) (n cn : Z) (dt : Q) :
  (1 <= n)%Z -> (1 <= cn)%Z -> gn g = n -> gu g = u ->
  vanishes_on_zero (interp_func g) ->
  dt == 0 \/ zero_velocity n u ->
  motionless dt (face_velocity_x g u n)
  /\ motionless dt (face_velocity_y g u n)
  /\ motionless dt (concentration_velocity g (cell_velocity u n) n cn).
Proof.
  intros Hn Hcn Hg Hu HZ [Hd | Hz]; [repeat split; now left |].
  assert (Hgu : zero_velocity n (gu g)) by now rewrite Hu.
  split; [| split]; right.
  - now apply face_velocity_x_zero.
  - now apply face_velocity_y_zero.
  - apply concentration_velocity_zero; trivial. now apply cell_velocity_zero.
Qed.

Lemma semi_family_same (method interp integrator : Z) (u : Field) (c : Grid)
    (n cn : Z) (dt : Q) :
  (1 <= n)%Z -> (1 <= cn)%Z -> (3 <= method)%Z ->
  dt == 0 \/ zero_velocity n u ->
  same_fields n cn (advect method interp integrator u c n cn dt) u c.
Proof.
  intros Hn Hcn Hm Hs. rewrite advect_semi_family by assumption. cbv zeta.
  set (g := entry_globals interp u c n cn).
  destruct (Z.eq_dec method 4) as [-> | H4].
  - rewrite semi_outputs_order2. cbv zeta.
    set (g' := set_interp_func g spline_interpolate).
    destruct (motionless_projections g' u n cn dt Hn Hcn eq_refl eq_refl
                spline_interpolate_zero Hs) as [Mx [My Mc]].
    apply copy_fields_same; intros i j Hij; unfold fset; simpl;
      apply maccormack_still;
      try exact spline_interpolate_exact; try exact spline_interpolate_zero;
      trivial.
    + apply (in_x_flow_rect n i j Hij).
    + apply (in_y_flow_rect n i j Hij).
    + apply (in_cells_rect cn i j Hij).
  - rewrite semi_outputs_order1 by assumption.
    destruct (motionless_projections g u n cn dt Hn Hcn eq_refl eq_refl
                (entry_kernel_zero interp u c n cn) Hs) as [Mx [My Mc]].
    apply copy_fields_same; intros i j Hij; unfold fset; simpl;
      apply semiLagrangian_still;
      try exact (entry_kernel_exact interp u c n cn); trivial.
    + apply (in_x_flow_rect n i j Hij).
    + apply (in_y_flow_rect n i j Hij).
    + apply (in_cells_rect cn i j Hij).
Qed.

(** C2.  On a grid of at least 2 x 2 velocity cells, if both components of
    the velocity are 0 over their extents, one call of [advect] leaves the
    velocity and the concentration as they were, for every method, kernel
    and integrator selector and every [dt].  With [n] = 1 the bilinear
    kernel takes the cell-centred velocity at index [min(x,n-2)] = -1 of
    the scratch buffer [up], outside what [alloc2D(n)] allocated, so the
    transport velocity of the concentration is not defined by the code
    there; from [n] = 2 on every read of a scratch buffer is inside it. *)
Theorem zero_velocity_unchanged (method interp integrator : Z) (u : Field)
    (c : Grid) (n cn : Z) (dt : Q) :
  (2 <= n)%Z -> (1 <= cn)%Z -> zero_velocity n u ->
  same_fields n cn (advect method interp integrator u c n cn dt) u c.
Proof.
  intros Hn2 Hcn Hz. assert (Hn : (1 <= n)%Z) by lia.
  destruct (Z.lt_ge_cases method 3) as [Hm | Hm].
  - apply (eulerian_same (zero_velocity n)); [assumption |].
    right. split; [assumption |]. split.
    + intros ua ca out Hua. now apply flat_zero_velocity.
    + intros tmp0 k b Hk. now apply stage_state_zero.
  - apply semi_family_same; auto.
Qed.

Lemma zero_velocity_unchanged_witness :
  let u : Field := fun _ _ _ => 0 in
  let c := grid_of [[0; 1; 2]; [3; 0; 1]; [1; 1; 4]] in
  (2 <= 2)%Z /\ (1 <= 3)%Z /\ zero_velocity 2 u
  /\ same_fields 2 3 (advect 1 1 2 u c 2 3 (1 # 10)) u c
  /\ same_fields 2 3 (advect 4 0 0 u c 2 3 (1 # 10)) u c.
Proof.
  intros u c.
  assert (Hz : zero_velocity 2 u) by (split; intros; reflexivity).
  split; [lia |]. split; [lia |]. split; [exact Hz |].
  split; apply zero_velocity_unchanged; (lia || exact Hz).
Defined.

(** C10.  With [dt] = 0, one call of [advect] leaves the velocity and the
    concentration as they were, for every method, kernel and integrator
    selector and every velocity. *)
Theorem zero_timestep_unchanged (method interp integrator : Z) (u : Field)
    (c : Grid) (n cn : Z) (dt : Q) :
  (1 <= n)%Z -> (1 <= cn)%Z -> dt == 0 ->
  same_fields n cn (advect method interp integrator u c n cn dt) u c.
Proof.
  intros Hn Hcn Hd. destruct (Z.lt_ge_cases method 3) as [Hm | Hm].
  - apply (eulerian_same (fun _ => True)); [assumption | now left].
  - apply semi_family_same; auto.
Qed.

Lemma zero_timestep_unchanged_witness :
  let u : Field := fun k => grid_of [[1; 2; 3]; [0; 1; 5]; [2; 2; 1]] in
  let c := grid_of [[0; 1]; [3; 0]] in
  (1 <= 2)%Z /\ (1 <= 2)%Z /\ 0 == 0
  /\ same_fields 2 2 (advect 2 0 2 u c 2 2 0) u c
  /\ same_fields 2 2 (advect 4 2 1 u c 2 2 0) u c.
Proof.
  intros u c. split; [lia |]. split; [lia |]. split; [reflexivity |].
  split; apply zero_timestep_unchanged; (lia || reflexivity).
Defined.

(** ** Selectors outside their range *)

(** C6, as the code has it.  No value of a selector makes [advect] fail.
    A method below 0 adds a zero derivative and leaves the fields as they
    were; with a method below 3, an integrator outside 0..2 runs no branch
    and returns the fields untouched.  The other out-of-range values fall
    on a default that does advect: a method above 4 runs the Semi-Lagrangian
    scheme like method 3, a kernel selector outside 0..2 selects
    [monotonic_cubic] like selector 2, and for a method from 3 on the
    integrator is never consulted. *)
Theorem out_of_range_selectors (method interp integrator : Z) (u : Field)
    (c : Grid) (n cn : Z) (dt : Q) :
  (1 <= n)%Z -> (1 <= cn)%Z ->
  ((method < 0)%Z ->
     same_fields n cn (advect method interp integrator u c n cn dt) u c)
  /\ ((method < 3)%Z -> ~ (0 <= integrator <= 2)%Z ->
     advect method interp integrator u c n cn dt = (u, c))
  /\ ((4 < method)%Z ->
     advect method interp integrator u c n cn dt
     = advect 3 interp integrator u c n cn dt)
  /\ (~ (0 <= interp <= 2)%Z ->
     advect method interp integrator u c n cn dt
     = advect method 2 integrator u c n cn dt)
  /\ ((3 <= method)%Z -> forall integrator',
     advect method interp integrator u c n cn dt
     = advect method interp integrator' u c n cn dt).
Proof.
  intros Hn Hcn. split; [| split; [| split; [| split]]].
  - intros Hm. apply (eulerian_same (fun _ => True)); [lia |].
    right. split; [exact Logic.I |]. split; [| trivial].
    intros ua ca out _. now apply flat_no_method.
  - intros Hm Hi.
    pose proof (advect_eulerian method interp integrator u c n cn dt Hm) as E.
    cbv zeta in E. rewrite E.
    destruct (Z.eqb_spec integrator 0); [lia |].
    destruct (Z.eqb_spec integrator 1); [lia |].
    destruct (Z.eqb_spec integrator 2); [lia | reflexivity].
  - intros Hm. rewrite !advect_semi_family by lia. cbv zeta.
    now rewrite !semi_outputs_order1 by lia.
  - intros Hi. unfold advect, advect_trace.
    destruct (Z.eqb_spec interp 0); [lia |].
    destruct (Z.eqb_spec interp 1); [lia | reflexivity].
  - intros Hm integrator'. now rewrite !advect_semi_family by lia.
Qed.

Lemma out_of_range_selectors_witness :
  let u : Field := fun k => grid_of [[1; 2; 3]; [0; 1; 5]; [2; 2; 1]] in
  let c := grid_of [[0; 1]; [3; 0]] in
  (1 <= 2)%Z /\ (1 <= 2)%Z
  /\ same_fields 2 2 (advect (-1) 0 0 u c 2 2 (1 # 10)) u c
  /\ advect 1 0 3 u c 2 2 (1 # 10) = (u, c)
  /\ advect 5 0 0 u c 2 2 (1 # 10) = advect 3 0 0 u c 2 2 (1 # 10).
Proof.
  intros u c. split; [lia |]. split; [lia |].
  destruct (out_of_range_selectors (-1) 0 0 u c 2 2 (1 # 10)) as [H1 _]; [lia | lia |].
  destruct (out_of_range_selectors 1 0 3 u c 2 2 (1 # 10)) as [_ [H2 _]]; [lia | lia |].
  destruct (out_of_range_selectors 5 0 0 u c 2 2 (1 # 10)) as [_ [_ [H3 _]]]; [lia | lia |].
  split; [apply H1; lia |]. split; [apply H2; lia | apply H3; lia].
Defined.

(** C6 as stated fails: with the x-velocity 1 everywhere, the method
    selector 5 (outside 0..4) moves the concentration at cell (1,0) from 3
    to 12/5; so do the kernel selector 7 and the integrator selector 9 when
    the method is 3. *)
Lemma out_of_range_selectors_counterexample :
  let u : Field := fun k => if (k =? 0)%Z then (fun _ _ => 1) else (fun _ _ => 0) in
  let c := grid_of [[0; 1]; [3; 0]] in
  c 1%Z 0%Z == 3
  /\ snd (advect 5 0 0 u c 2 2 (1 # 10)) 1%Z 0%Z == 12 # 5
  /\ snd (advect 3 7 0 u c 2 2 (1 # 10)) 1%Z 0%Z == 12 # 5
  /\ snd (advect 3 0 9 u c 2 2 (1 # 10)) 1%Z 0%Z == 12 # 5
  /\ ~ same_fields 2 2 (advect 5 0 0 u c 2 2 (1 # 10)) u c.
Proof.
  intros u c.
  assert (H5 : snd (advect 5 0 0 u c 2 2 (1 # 10)) 1%Z 0%Z == 12 # 5)
    by (vm_compute; reflexivity).
  split; [reflexivity |]. split; [exact H5 |].
  split; [vm_compute; reflexivity |]. split; [vm_compute; reflexivity |].
  intros [_ [_ Hc]]. specialize (Hc 1%Z 0%Z). rewrite H5 in Hc.
  assert (Hin : in_cells 2 1 0) by (unfold in_cells; lia).
  specialize (Hc Hin). vm_compute in Hc. discriminate.
Qed.

(** ** The kernels beyond the last node *)

(** C5, at the failing input.  On a 3 x 2 grid whose columns hold 0, 1 and
    5, the last node is x = 2 and all three kernels return 5 there.  At
    x = 3 the spline and the monotonic cubic still return 5, but
    [linear_interpolate] returns 9 (and 7 at x = 5/2): it clamps x to
    [0, width], not to [0, width-1], and extrapolates past the last node. *)
Theorem linear_interpolate_extrapolates :
  let d := grid_of [[0; 0]; [1; 1]; [5; 5]] in
  linear_interpolate d 3 2 2 0 == 5
  /\ linear_interpolate d 3 2 3 0 == 9
  /\ linear_interpolate d 3 2 (5 # 2) 0 == 7
  /\ spline_interpolate d 3 2 2 0 == 5 /\ spline_interpolate d 3 2 3 0 == 5
  /\ monotonic_cubic d 3 2 2 0 == 5 /\ monotonic_cubic d 3 2 3 0 == 5
  /\ ~ linear_interpolate d 3 2 3 0 == linear_interpolate d 3 2 2 0.
Proof.
  intros d. repeat split; try (vm_compute; reflexivity).
  vm_compute. discriminate.
Qed.

(** * Further properties *)

(** ** Flat stencils *)





(** ** The kernels inside the grid *)

(** X1.  Sampled at a grid node, each of the three kernels returns the value
    stored at that node. *)
Theorem kernels_exact_at_nodes (d : Grid) (w h i j : Z) (x y : Q) :
  (0 <= i <= w - 1)%Z -> (0 <= j <= h - 1)%Z ->
  x == inject_Z i -> y == inject_Z j ->
  linear_interpolate d w h x y == d i j
  /\ spline_interpolate d w h x y == d i j
  /\ monotonic_cubic d w h x y == d i j.
Proof.
  intros Hi Hj Hx Hy. split; [| split].
  - now apply linear_interpolate_exact.
  - now apply spline_interpolate_exact.
  - now apply monotonic_cubic_exact.
Qed.

Lemma kernels_exact_at_nodes_witness :
  let d := grid_of [[0; 4]; [1; 7]; [5; 2]] in
  (0 <= 2 <= 3 - 1)%Z /\ (0 <= 1 <= 2 - 1)%Z
  /\ linear_interpolate d 3 2 (4 # 2) 1 == 2
  /\ spline_interpolate d 3 2 (4 # 2) 1 == 2
  /\ monotonic_cubic d 3 2 (4 # 2) 1 == 2.
Proof.
  intros d. split; [lia |]. split; [lia |].
  apply (kernels_exact_at_nodes d 3 2 2 1 (4 # 2) 1); (lia || reflexivity).
Defined.

Lemma linear_cell_range (X : Q) (w : Z) :
  (2 <= w)%Z -> 0 <= X ->
  (0 <= trunc (fmin X (inject_Z (w - 2))) <= w - 2)%Z.
Proof.
  intros Hw HX.
  assert (H2 : 0 <= inject_Z (w - 2))
    by (change 0 with (inject_Z 0); apply inject_Z_le; lia).
  assert (Hm : 0 <= fmin X (inject_Z (w - 2))) by now apply fmin_glb.
  split; [now apply trunc_nonneg_le |].
  rewrite (trunc_nonneg _ Hm). rewrite <- (Qfloor_Z (w - 2)) at 2.
  apply Qfloor_resp_le, fmin_r.
Qed.

(** The interval that [linear_interpolate] picks holds a coordinate of
    [0, extent-1]. *)
Lemma linear_cell_holds (X : Q) (w : Z) :
  (2 <= w)%Z -> 0 <= X -> X <= inject_Z (w - 1) ->
  let i := trunc (fmin X (inject_Z (w - 2))) in
  (0 <= i <= w - 2)%Z /\ inject_Z i <= X /\ X <= inject_Z (i + 1).
Proof.
  intros Hw H0 H1 i. split; [now apply linear_cell_range |]. subst i.
  destruct (fmin_cases X (inject_Z (w - 2))) as [[Hlt ->] | [Hle ->]].
  - rewrite trunc_inject_Z. replace (w - 2 + 1)%Z with (w - 1)%Z by lia.
    split; [lra | exact H1].
  - destruct (trunc_floor_bounds X H0) as [A B]. split; [exact A | lra].
Qed.

(** X6.  With a width and a height of at least 2, [linear_interpolate]
    reads the four corners of one cell of the grid and nothing else: the
    indices [i], [i+1], [j], [j+1] it computes are inside the grid for every
    coordinate, a grid that agrees with [d] at these four corners gives the
    same result, and for a coordinate that does not pass the last node on
    either axis the cell holds the clamped point. *)
Theorem linear_interpolate_within_cell (d : Grid) (w h : Z) (x y : Q) :
  (2 <= w)%Z -> (2 <= h)%Z ->
  let X := fmax 0 (fmin (inject_Z w) x) in
  let Y := fmax 0 (fmin (inject_Z h) y) in
  let i := trunc (fmin X (inject_Z (w - 2))) in
  let j := trunc (fmin Y (inject_Z (h - 2))) in
  (0 <= i /\ i + 1 <= w - 1 /\ 0 <= j /\ j + 1 <= h - 1)%Z
  /\ (x <= inject_Z (w - 1) -> y <= inject_Z (h - 1) -> surrounds w h i j X Y)
  /\ (forall d' : Grid,
        d' i j == d i j -> d' (i + 1)%Z j == d (i + 1)%Z j ->
        d' i (j + 1)%Z == d i (j + 1)%Z ->
        d' (i + 1)%Z (j + 1)%Z == d (i + 1)%Z (j + 1)%Z ->
        linear_interpolate d' w h x y == linear_interpolate d w h x y).
Proof.
  intros Hw Hh X Y i j.
  assert (X0 : 0 <= X) by apply fmax_l. assert (Y0 : 0 <= Y) by apply fmax_l.
  pose proof (linear_cell_range X w Hw X0) as Ri.
  pose proof (linear_cell_range Y h Hh Y0) as Rj.
  fold i in Ri. fold j in Rj.
  split; [lia |]. split.
  - intros Hx Hy.
    assert (W1 : 0 <= inject_Z (w - 1))
      by (change 0 with (inject_Z 0); apply inject_Z_le; lia).
    assert (W2 : 0 <= inject_Z (h - 1))
      by (change 0 with (inject_Z 0); apply inject_Z_le; lia).
    assert (X1 : X <= inject_Z (w - 1)).
    { subst X. apply fmax_lub; [exact W1 |].
      pose proof (fmin_r (inject_Z w) x). lra. }
    assert (Y1 : Y <= inject_Z (h - 1)).
    { subst Y. apply fmax_lub; [exact W2 |].
      pose proof (fmin_r (inject_Z h) y). lra. }
    destruct (linear_cell_holds X w Hw X0 X1) as [_ [Li Ui]].
    destruct (linear_cell_holds Y h Hh Y0 Y1) as [_ [Lj Uj]].
    fold i in Li, Ui. fold j in Lj, Uj.
    unfold surrounds. repeat split; (lia || assumption).
  - intros d' E00 E10 E01 E11.
    unfold linear_interpolate. fold X. fold Y. cbv zeta. fold i. fold j.
    rewrite E00, E10, E01, E11. reflexivity.
Qed.

Lemma linear_interpolate_within_cell_witness :
  let d := grid_of [[0; 4; 1]; [1; 7; 3]; [5; 2; 2]] in
  (2 <= 3)%Z /\ (2 <= 3)%Z
  /\ surrounds 3 3 1 0 (5 # 4) (1 # 2)
  /\ (forall d' : Grid,
        d' 1%Z 0%Z == 1 -> d' 2%Z 0%Z == 5 -> d' 1%Z 1%Z == 7 -> d' 2%Z 1%Z == 2 ->
        linear_interpolate d' 3 3 (5 # 4) (1 # 2)
        == linear_interpolate d 3 3 (5 # 4) (1 # 2)).
Proof.
  intros d.
  assert (Hx : 5 # 4 <= inject_Z (3 - 1)) by (vm_compute; discriminate).
  assert (Hy : 1 # 2 <= inject_Z (3 - 1)) by (vm_compute; discriminate).
  destruct (linear_interpolate_within_cell d 3 3 (5 # 4) (1 # 2))
    as [_ [S D]]; [lia | lia |].
  split; [lia |]. split; [lia |]. split; [exact (S Hx Hy) |].
  intros d' E00 E10 E01 E11. apply D; assumption.
Defined.

(** ** The spline limiter in two dimensions *)

Lemma fmin_among (a b : Q) : fmin a b = a \/ fmin a b = b.
Proof. destruct (fmin_cases a b) as [[_ ->] | [_ ->]]; auto. Qed.

Lemma fmax_among (a b : Q) : fmax a b = a \/ fmax a b = b.
Proof. destruct (fmax_cases a b) as [[_ ->] | [_ ->]]; auto. Qed.

(** The result of [spline_interpolate] lies between the values at the four
    central cells of its stencil. *)
Lemma spline_interpolate_between (d : Grid) (w h : Z) (x y : Q) :
  let X := fmax 0 (fmin (inject_Z w) x) in
  let Y := fmax 0 (fmin (inject_Z h) y) in
  let i1 := imin (w - 1) (imax 0 (trunc X)) in
  let i2 := imin (w - 1) (imax 0 (trunc X + 1)) in
  let j1 := imin (h - 1) (imax 0 (trunc Y)) in
  let j2 := imin (h - 1) (imax 0 (trunc Y + 1)) in
  between4 (d i1 j1) (d i2 j1) (d i1 j2) (d i2 j2) (spline_interpolate d w h x y).
Proof.
  intros X Y i1 i2 j1 j2. unfold spline_interpolate. fold X. fold Y. cbv zeta.
  set (f := gather d w h X Y).
  set (xn := fold_left _ _ uninit).
  destruct (spline_cubic_between xn (Y - inject_Z (trunc Y))) as [Lo Hi].
  assert (E1 : xn 1%Z = spline_cubic (row f 1) (X - inject_Z (trunc X)))
    by (apply rows_at; lia).
  assert (E2 : xn 2%Z = spline_cubic (row f 2) (X - inject_Z (trunc X)))
    by (apply rows_at; lia).
  destruct (spline_cubic_between (row f 1) (X - inject_Z (trunc X))) as [Lo1 Hi1].
  destruct (spline_cubic_between (row f 2) (X - inject_Z (trunc X))) as [Lo2 Hi2].
  rewrite <- E1 in Lo1, Hi1. rewrite <- E2 in Lo2, Hi2.
  assert (F11 : row f 1 1%Z = d i1 j1).
  { unfold row, f. rewrite (gather_at d w h X Y 1 1) by lia.
    subst i1 j1. f_equal; f_equal; f_equal; lia. }
  assert (F12 : row f 1 2%Z = d i2 j1).
  { unfold row, f. rewrite (gather_at d w h X Y 2 1) by lia.
    subst i2 j1. f_equal; f_equal; f_equal; lia. }
  assert (F21 : row f 2 1%Z = d i1 j2).
  { unfold row, f. rewrite (gather_at d w h X Y 1 2) by lia.
    subst i1 j2. f_equal; f_equal; f_equal; lia. }
  assert (F22 : row f 2 2%Z = d i2 j2).
  { unfold row, f. rewrite (gather_at d w h X Y 2 2) by lia.
    subst i2 j2. f_equal; f_equal; f_equal; lia. }
  rewrite F11, F12 in Lo1, Hi1. rewrite F21, F22 in Lo2, Hi2.
  clear E1 E2 F11 F12 F21 F22.
  set (r := spline_cubic xn (Y - inject_Z (trunc Y))) in *.
  set (p := xn 1%Z) in *. set (q := xn 2%Z) in *.
  set (a := d i1 j1) in *. set (b := d i2 j1) in *.
  set (c := d i1 j2) in *. set (e := d i2 j2) in *.
  clearbody r p q a b c e.
  unfold between4. split.
  - destruct (fmin_among p q) as [E | E]; rewrite E in Lo.
    + destruct (fmin_among a b) as [F | F]; rewrite F in Lo1.
      * left. lra.
      * right. left. lra.
    + destruct (fmin_among c e) as [F | F]; rewrite F in Lo2.
      * right. right. left. lra.
      * right. right. right. lra.
  - destruct (fmax_among q p) as [E | E]; rewrite E in Hi.
    + destruct (fmax_among e c) as [F | F]; rewrite F in Hi2.
      * right. right. right. lra.
      * right. right. left. lra.
    + destruct (fmax_among b a) as [F | F]; rewrite F in Hi1.
      * right. left. lra.
      * left. lra.
Qed.

Lemma clamp_index_range (extent t : Z) :
  (1 <= extent)%Z -> (0 <= imin (extent - 1) (imax 0 t) <= extent - 1)%Z.
Proof. intros H. rewrite imax_max, imin_min. lia. Qed.

Lemma spline_no_new_extremum (d : Grid) (w h : Z) (x y : Q) :
  (1 <= w)%Z -> (1 <= h)%Z ->
  no_new_extremum d w h (spline_interpolate d w h x y).
Proof.
  intros Hw Hh.
  pose proof (spline_interpolate_between d w h x y) as H. cbv zeta in H.
  set (X := fmax 0 (fmin (inject_Z w) x)) in *.
  set (Y := fmax 0 (fmin (inject_Z h) y)) in *.
  pose proof (clamp_index_range w (trunc X) Hw) as I1.
  pose proof (clamp_index_range w (trunc X + 1) Hw) as I2.
  pose proof (clamp_index_range h (trunc Y) Hh) as J1.
  pose proof (clamp_index_range h (trunc Y + 1) Hh) as J2.
  set (i1 := imin (w - 1) (imax 0 (trunc X))) in *.
  set (i2 := imin (w - 1) (imax 0 (trunc X + 1))) in *.
  set (j1 := imin (h - 1) (imax 0 (trunc Y))) in *.
  set (j2 := imin (h - 1) (imax 0 (trunc Y + 1))) in *.
  destruct H as [Lo Hi]. unfold no_new_extremum.
  destruct Lo as [L | [L | [L | L]]]; destruct Hi as [U | [U | [U | U]]];
    match type of L with d ?a ?b <= _ =>
      match type of U with _ <= d ?a' ?b' =>
        exists a, b, a', b'; repeat split; (lia || assumption)
      end
    end.
Qed.

(** X7.  [spline_interpolate] never overshoots: for any coordinate, inside
    the grid or not, its result lies between the least and the greatest of
    the values at the four cells in the middle of its stencil, and these
    are cells of the grid. *)
Theorem spline_interpolate_no_overshoot (d : Grid) (w h : Z) (x y : Q) :
  (1 <= w)%Z -> (1 <= h)%Z ->
  let X := fmax 0 (fmin (inject_Z w) x) in
  let Y := fmax 0 (fmin (inject_Z h) y) in
  let i1 := imin (w - 1) (imax 0 (trunc X)) in
  let i2 := imin (w - 1) (imax 0 (trunc X + 1)) in
  let j1 := imin (h - 1) (imax 0 (trunc Y)) in
  let j2 := imin (h - 1) (imax 0 (trunc Y + 1)) in
  (0 <= i1 <= w - 1 /\ 0 <= i2 <= w - 1 /\ 0 <= j1 <= h - 1 /\ 0 <= j2 <= h - 1)%Z
  /\ between4 (d i1 j1) (d i2 j1) (d i1 j2) (d i2 j2) (spline_interpolate d w h x y).
Proof.
  intros Hw Hh X Y i1 i2 j1 j2. split.
  - subst i1 i2 j1 j2.
    pose proof (clamp_index_range w (trunc X) Hw).
    pose proof (clamp_index_range w (trunc X + 1) Hw).
    pose proof (clamp_index_range h (trunc Y) Hh).
    pose proof (clamp_index_range h (trunc Y + 1) Hh). lia.
  - apply spline_interpolate_between.
Qed.

Lemma spline_interpolate_no_overshoot_witness :
  let d := grid_of [[0; 4]; [1; 7]; [5; 2]] in
  (1 <= 3)%Z /\ (1 <= 2)%Z
  /\ between4 (d 1%Z 0%Z) (d 2%Z 0%Z) (d 1%Z 1%Z) (d 2%Z 1%Z)
       (spline_interpolate d 3 2 (7 # 4) (1 # 3)).
Proof.
  intros d. split; [lia |]. split; [lia |].
  destruct (spline_interpolate_no_overshoot d 3 2 (7 # 4) (1 # 3)) as [_ H];
    [lia | lia |].
  exact H.
Defined.

(** ** The cubic kernels beyond the last node *)

Lemma spline_cubic_closed (a : Arr) (x : Q) :
  spline_cubic a x = spline_closed (a 0%Z) (a 1%Z) (a 2%Z) (a 3%Z) x.
Proof. reflexivity. Qed.

Lemma Qgtb_ext (a a' b b' : Q) : a == a' -> b == b' -> Qgtb a b = Qgtb a' b'.
Proof.
  intros Ha Hb.
  destruct (Qgtb_spec a b) as [[-> H] | [-> H]];
    destruct (Qgtb_spec a' b') as [[-> H'] | [-> H']]; trivial; lra.
Qed.

Lemma fmin_ext (a a' b b' : Q) : a == a' -> b == b' -> fmin a b == fmin a' b'.
Proof.
  intros Ha Hb. unfold fmin. rewrite (Qgtb_ext a a' b b' Ha Hb).
  now destruct (Qgtb a' b').
Qed.

Lemma fmax_ext (a a' b b' : Q) : a == a' -> b == b' -> fmax a b == fmax a' b'.
Proof.
  intros Ha Hb. unfold fmax. rewrite (Qgtb_ext a a' b b' Ha Hb).
  now destruct (Qgtb a' b').
Qed.

(** [spline_cubic] depends on the values of its four samples only. *)
Lemma spline_cubic_ext (a a' : Arr) (x : Q) :
  (forall k, (0 <= k <= 3)%Z -> a k == a' k) ->
  spline_cubic a x == spline_cubic a' x.
Proof.
  intros H. rewrite !spline_cubic_closed.
  pose proof (H 0%Z ltac:(lia)) as H0. pose proof (H 1%Z ltac:(lia)) as H1.
  pose proof (H 2%Z ltac:(lia)) as H2. pose proof (H 3%Z ltac:(lia)) as H3.
  unfold spline_closed. cbv zeta.
  apply fmin_ext; [now apply fmax_ext |].
  apply fmax_ext; [now apply fmin_ext |].
  rewrite H0, H1, H2, H3. reflexivity.
Qed.

Lemma Qeq_bool_ext (a a' : Q) : a == a' -> Qeq_bool a 0 = Qeq_bool a' 0.
Proof.
  intros H. destruct (Qeq_bool a 0) eqn:E, (Qeq_bool a' 0) eqn:E'; trivial.
  - apply Qeq_bool_iff in E. apply Qeq_bool_neq in E'. exfalso. apply E'.
    now rewrite <- H.
  - apply Qeq_bool_iff in E'. apply Qeq_bool_neq in E. exfalso. apply E.
    now rewrite H.
Qed.

Lemma monotonic_cubic_4_ext (a a' : Arr) (x : Q) :
  (forall k, (0 <= k <= 3)%Z -> a k == a' k) ->
  monotonic_cubic_4 a x == monotonic_cubic_4 a' x.
Proof.
  intros H.
  pose proof (H 0%Z ltac:(lia)) as H0. pose proof (H 1%Z ltac:(lia)) as H1.
  pose proof (H 2%Z ltac:(lia)) as H2. pose proof (H 3%Z ltac:(lia)) as H3.
  assert (D : a 2%Z - a 1%Z == a' 2%Z - a' 1%Z) by (rewrite H1, H2; reflexivity).
  unfold monotonic_cubic_4.
  rewrite (Qeq_bool_ext _ _ D), (Qgtb_ext _ _ 0 0 D (Qeq_refl 0)).
  destruct (Qeq_bool (a' 2%Z - a' 1%Z) 0); [| destruct (Qgtb (a' 2%Z - a' 1%Z) 0)];
    cbv beta iota zeta; rewrite ?H0, ?H1, ?H2, ?H3; reflexivity.
Qed.

Lemma spline_cubic_flat (a : Arr) (x : Q) : a 2%Z == a 1%Z -> spline_cubic a x == a 1%Z.
Proof.
  intros H. destruct (spline_cubic_between a x) as [Lo Hi].
  destruct (fmin_cases (a 1%Z) (a 2%Z)) as [[_ E] | [_ E]]; rewrite E in Lo;
    destruct (fmax_cases (a 2%Z) (a 1%Z)) as [[_ F] | [_ F]]; rewrite F in Hi; lra.
Qed.

(** X8.  Both one-dimensional cubics return the second sample [a[1]] at
    offset 0, whatever the four samples, and at every offset when the two
    middle samples [a[1]] and [a[2]] are equal. *)
Theorem cubics_return_second_sample (a : Arr) (x : Q) :
  x == 0 \/ a 2%Z == a 1%Z ->
  monotonic_cubic_4 a x == a 1%Z /\ spline_cubic a x == a 1%Z.
Proof.
  intros [Hx | Hf]; split.
  - now apply monotonic_cubic_4_at_0.
  - now apply spline_cubic_at_0.
  - now apply monotonic_cubic_4_flat.
  - now apply spline_cubic_flat.
Qed.

Lemma cubics_return_second_sample_witness :
  let a := arr_of [3; 1; 2; 7] in
  let b := arr_of [3; 4; 4; 9] in
  (0 == 0 \/ a 2%Z == a 1%Z)
  /\ (monotonic_cubic_4 a 0 == 1 /\ spline_cubic a 0 == 1)
  /\ (2 # 3 == 0 \/ b 2%Z == b 1%Z)
  /\ (monotonic_cubic_4 b (2 # 3) == 4 /\ spline_cubic b (2 # 3) == 4).
Proof.
  intros a b.
  assert (Ha : 0 == 0 \/ a 2%Z == a 1%Z) by (left; reflexivity).
  assert (Hb : 2 # 3 == 0 \/ b 2%Z == b 1%Z) by (right; reflexivity).
  split; [exact Ha |]. split; [exact (cubics_return_second_sample a 0 Ha) |].
  split; [exact Hb |]. exact (cubics_return_second_sample b (2 # 3) Hb).
Defined.

(** A coordinate at or beyond the last node is clamped into [extent-1,
    extent], so its integer part is the last node or the extent. *)
Lemma beyond_last_node (x : Q) (w : Z) :
  (1 <= w)%Z -> inject_Z (w - 1) <= x ->
  let X := fmax 0 (fmin (inject_Z w) x) in
  trunc X = (w - 1)%Z \/ trunc X = w.
Proof.
  intros Hw Hx X.
  assert (H1 : inject_Z (w - 1) <= inject_Z w) by (apply inject_Z_le; lia).
  assert (H0 : 0 <= inject_Z (w - 1))
    by (change 0 with (inject_Z 0); apply inject_Z_le; lia).
  assert (Lo : inject_Z (w - 1) <= X).
  { subst X. pose proof (fmax_r 0 (fmin (inject_Z w) x)).
    pose proof (fmin_glb (inject_Z w) x (inject_Z (w - 1)) H1 Hx). lra. }
  assert (Hi : X <= inject_Z w).
  { subst X. apply fmax_lub; [lra | apply fmin_l]. }
  assert (P : 0 <= X) by lra.
  rewrite (trunc_nonneg X P).
  pose proof (Qfloor_resp_le _ _ Lo) as F1. pose proof (Qfloor_resp_le _ _ Hi) as F2.
  rewrite Qfloor_Z in F1, F2. lia.
Qed.

Lemma at_last_node (w : Z) :
  (1 <= w)%Z ->
  let X := fmax 0 (fmin (inject_Z w) (inject_Z (w - 1))) in
  X == inject_Z (w - 1) /\ trunc X = (w - 1)%Z.
Proof.
  intros Hw X.
  assert (E : X == inject_Z (w - 1)) by (apply clamp_coordinate; [lia | reflexivity]).
  split; [exact E | now apply trunc_eq_Z].
Qed.

(** From the last node on, the second and third cells of the stencil are both
    the last cell. *)
Lemma last_index (w t k : Z) :
  (1 <= w)%Z -> t = (w - 1)%Z \/ t = w -> (1 <= k)%Z ->
  imin (w - 1) (imax 0 (t - 1 + k)) = (w - 1)%Z.
Proof. intros Hw Ht Hk. rewrite imax_max, imin_min. lia. Qed.

Section BeyondEdge.
Variable cubic : Arr -> Q -> Q.
Hypothesis edge_at_0 : forall a x, x == 0 -> cubic a x == a 1%Z.
Hypothesis edge_flat : forall a x, a 2%Z == a 1%Z -> cubic a x == a 1%Z.
Hypothesis edge_ext : forall a a' x,
  (forall k, (0 <= k <= 3)%Z -> a k == a' k) -> cubic a x == cubic a' x.

Lemma bicubic_beyond_x (d : Grid) (w h : Z) (x y : Q) :
  (1 <= w)%Z -> inject_Z (w - 1) <= x ->
  bicubic cubic d w h x y == bicubic cubic d w h (inject_Z (w - 1)) y.
Proof.
  intros Hw Hx. unfold bicubic. cbv zeta.
  pose proof (beyond_last_node x w Hw Hx) as TX. cbv zeta in TX.
  destruct (at_last_node w Hw) as [EX' TX'].
  set (X := fmax 0 (fmin (inject_Z w) x)) in *.
  set (X' := fmax 0 (fmin (inject_Z w) (inject_Z (w - 1)))) in *.
  set (Y := fmax 0 (fmin (inject_Z h) y)).
  apply edge_ext. intros k Hk. rewrite !rows_at by assumption.
  rewrite (edge_at_0 _ (X' - inject_Z (trunc X'))) by (rewrite TX', EX'; ring).
  rewrite edge_flat.
  - unfold row. rewrite !gather_at by lia.
    rewrite (last_index w (trunc X) 1 Hw TX) by lia.
    rewrite (last_index w (trunc X') 1 Hw) by (lia || auto).
    reflexivity.
  - unfold row. rewrite !gather_at by lia.
    rewrite (last_index w (trunc X) 1 Hw TX), (last_index w (trunc X) 2 Hw TX) by lia.
    reflexivity.
Qed.

Lemma bicubic_beyond_y (d : Grid) (w h : Z) (x y : Q) :
  (1 <= h)%Z -> inject_Z (h - 1) <= y ->
  bicubic cubic d w h x y == bicubic cubic d w h x (inject_Z (h - 1)).
Proof.
  intros Hh Hy. unfold bicubic. cbv zeta.
  pose proof (beyond_last_node y h Hh Hy) as TY. cbv zeta in TY.
  destruct (at_last_node h Hh) as [EY' TY'].
  set (X := fmax 0 (fmin (inject_Z w) x)).
  set (Y := fmax 0 (fmin (inject_Z h) y)) in *.
  set (Y' := fmax 0 (fmin (inject_Z h) (inject_Z (h - 1)))) in *.
  rewrite (edge_at_0 _ (Y' - inject_Z (trunc Y'))) by (rewrite TY', EY'; ring).
  rewrite edge_flat.
  - rewrite !rows_at by lia. apply edge_ext. intros k Hk.
    unfold row. rewrite !gather_at by lia.
    rewrite (last_index h (trunc Y) 1 Hh TY) by lia.
    rewrite (last_index h (trunc Y') 1 Hh) by (lia || auto).
    reflexivity.
  - rewrite !rows_at by lia. apply edge_ext. intros k Hk.
    unfold row. rewrite !gather_at by lia.
    rewrite (last_index h (trunc Y) 1 Hh TY), (last_index h (trunc Y) 2 Hh TY) by lia.
    reflexivity.
Qed.
End BeyondEdge.

(** X9.  For a coordinate at or beyond the last node of an axis,
    [spline_interpolate] and [monotonic_cubic] return what they return at
    the last node of that axis: their index clamp repeats the last row or
    column of the grid. *)
Theorem cubic_kernels_beyond_last_node (d : Grid) (w h : Z) (x y : Q) :
  (1 <= w)%Z -> (1 <= h)%Z ->
  (inject_Z (w - 1) <= x ->
     spline_interpolate d w h x y == spline_interpolate d w h (inject_Z (w - 1)) y
     /\ monotonic_cubic d w h x y == monotonic_cubic d w h (inject_Z (w - 1)) y)
  /\ (inject_Z (h - 1) <= y ->
     spline_interpolate d w h x y == spline_interpolate d w h x (inject_Z (h - 1))
     /\ monotonic_cubic d w h x y == monotonic_cubic d w h x (inject_Z (h - 1))).
Proof.
  intros Hw Hh. rewrite spline_interpolate_bicubic, monotonic_cubic_bicubic.
  split; intros H; split.
  - apply bicubic_beyond_x; trivial.
    + apply spline_cubic_at_0. + apply spline_cubic_flat. + apply spline_cubic_ext.
  - apply bicubic_beyond_x; trivial.
    + apply monotonic_cubic_4_at_0. + apply monotonic_cubic_4_flat.
    + apply monotonic_cubic_4_ext.
  - apply bicubic_beyond_y; trivial.
    + apply spline_cubic_at_0. + apply spline_cubic_flat. + apply spline_cubic_ext.
  - apply bicubic_beyond_y; trivial.
    + apply monotonic_cubic_4_at_0. + apply monotonic_cubic_4_flat.
    + apply monotonic_cubic_4_ext.
Qed.

Lemma cubic_kernels_beyond_last_node_witness :
  let d := grid_of [[0; 4]; [1; 7]; [5; 2]] in
  (1 <= 3)%Z /\ (1 <= 2)%Z /\ inject_Z (3 - 1) <= 7 # 2
  /\ spline_interpolate d 3 2 (7 # 2) (1 # 3)
     == spline_interpolate d 3 2 (inject_Z (3 - 1)) (1 # 3)
  /\ monotonic_cubic d 3 2 (7 # 2) (1 # 3)
     == monotonic_cubic d 3 2 (inject_Z (3 - 1)) (1 # 3).
Proof.
  intros d.
  assert (Hx : inject_Z (3 - 1) <= 7 # 2) by (vm_compute; discriminate).
  split; [lia |]. split; [lia |]. split; [exact Hx |].
  destruct (cubic_kernels_beyond_last_node d 3 2 (7 # 2) (1 # 3)) as [H _];
    [lia | lia |].
  exact (H Hx).
Defined.

(** ** The Euler integrators, cell by cell *)

Lemma add_stage_cells (r : Field * Grid) (k : Field) (b : Q) (n cn i j : Z) :
  (in_rect (n + 1) (n + 1) i j = true ->
     fst (add_stage r k b n cn) 0%Z i j = 1 * fst r 0%Z i j + b * k 0%Z i j
     /\ fst (add_stage r k b n cn) 1%Z i j = 1 * fst r 1%Z i j + b * k 1%Z i j)
  /\ (in_rect cn cn i j = true ->
     snd (add_stage r k b n cn) i j = 1 * snd r i j + b * k 2%Z i j).
Proof.
  unfold add_stage. cbn [fst snd]. split.
  - intros R. unfold fset. simpl. now rewrite !op2D_in by assumption.
  - intros R. now rewrite op2D_in by assumption.
Qed.

(** X10.  With a method below 3 and the Forward Euler integrator, [advect]
    leaves in every cell of each field its previous value plus [dt] times
    the two-axis advective term of that cell, the stencils being read
    through [u_ref] and [c_ref]. *)
Theorem forward_euler_cells (method interp : Z) (u : Field) (c : Grid)
    (n cn : Z) (dt : Q) :
  (method < 3)%Z -> (1 <= n)%Z -> (1 <= cn)%Z ->
  let g := entry_globals interp u c n cn in
  let r := advect method interp 0 u c n cn dt in
  (forall i j, in_x_flow n i j ->
     fst r 0%Z i j == u 0%Z i j + dt * x_flow_value g method u n i j)
  /\ (forall i j, in_y_flow n i j ->
     fst r 1%Z i j == u 1%Z i j + dt * y_flow_value g method u n i j)
  /\ (forall i j, in_cells cn i j ->
     snd r i j == c i j + dt * concentration_value g method u n cn i j).
Proof.
  intros Hm Hn Hcn g r. subst r.
  pose proof (advect_eulerian method interp 0 u c n cn dt Hm) as E.
  cbv zeta in E. fold g in E. rewrite E. clear E. cbn [Z.eqb].
  split; [| split]; intros i j Hij.
  - destruct (in_x_flow_rect n i j Hij) as [R1 R2].
    destruct (add_stage_cells (u, c)
      (advect_diff g method u c n cn (fresh_k n cn) dt) dt n cn i j) as [A _].
    destruct (A R2) as [-> _]. cbn [fst].
    destruct (advect_diff_get g method u c n cn (fresh_k n cn) dt i j Hn Hcn) as [-> _].
    rewrite R1. ring.
  - destruct (in_y_flow_rect n i j Hij) as [R1 R2].
    destruct (add_stage_cells (u, c)
      (advect_diff g method u c n cn (fresh_k n cn) dt) dt n cn i j) as [A _].
    destruct (A R2) as [_ ->]. cbn [fst].
    destruct (advect_diff_get g method u c n cn (fresh_k n cn) dt i j Hn Hcn)
      as [_ [-> _]].
    rewrite R1. ring.
  - pose proof (in_cells_rect cn i j Hij) as R.
    destruct (add_stage_cells (u, c)
      (advect_diff g method u c n cn (fresh_k n cn) dt) dt n cn i j) as [_ A].
    rewrite (A R). cbn [snd].
    destruct (advect_diff_get g method u c n cn (fresh_k n cn) dt i j Hn Hcn)
      as [_ [_ ->]].
    rewrite R. ring.
Qed.

Lemma forward_euler_cells_witness :
  let u : Field := fun k => grid_of [[1; 2; 3]; [0; 1; 5]; [2; 2; 1]] in
  let c := grid_of [[0; 1]; [3; 0]] in
  let g := entry_globals 0 u c 2 2 in
  (0 < 3)%Z /\ (1 <= 2)%Z /\ (1 <= 2)%Z
  /\ snd (advect 0 0 0 u c 2 2 (1 # 10)) 1%Z 0%Z
     == c 1%Z 0%Z + (1 # 10) * concentration_value g 0 u 2 2 1 0.
Proof.
  intros u c g. split; [lia |]. split; [lia |]. split; [lia |].
  destruct (forward_euler_cells 0 0 u c 2 2 (1 # 10)) as [_ [_ H]]; try lia.
  apply (H 1%Z 0%Z). unfold in_cells. lia.
Defined.

(** X11.  With a method below 3 and the Modified Euler integrator, [advect]
    leaves in every cell its previous value plus [0.5*dt] times the
    advective term of the first stage plus [0.5*dt] times that of the second
    stage; the second stage takes its transport velocity from the temporary
    state but differences the caller's fields, which it reads through the
    globals.  The concentration handed to [advect_diff] is never read. *)
Theorem modified_euler_cells (method interp : Z) (u : Field) (c : Grid)
    (n cn : Z) (dt : Q) :
  (method < 3)%Z -> (1 <= n)%Z -> (1 <= cn)%Z ->
  let g := entry_globals interp u c n cn in
  let k0 := advect_diff g method u c n cn (fresh_k n cn) dt in
  let t1 := stage_state (fresh_k n cn) u c k0 dt n cn in
  let r := advect method interp 1 u c n cn dt in
  (forall i j, in_x_flow n i j ->
     fst r 0%Z i j == u 0%Z i j + 0.5 * dt * x_flow_value g method u n i j
                      + 0.5 * dt * x_flow_value g method t1 n i j)
  /\ (forall i j, in_y_flow n i j ->
     fst r 1%Z i j == u 1%Z i j + 0.5 * dt * y_flow_value g method u n i j
                      + 0.5 * dt * y_flow_value g method t1 n i j)
  /\ (forall i j, in_cells cn i j ->
     snd r i j == c i j + 0.5 * dt * concentration_value g method u n cn i j
                  + 0.5 * dt * concentration_value g method t1 n cn i j)
  /\ (forall ua ca ca' out,
     advect_diff g method ua ca n cn out dt = advect_diff g method ua ca' n cn out dt).
Proof.
  intros Hm Hn Hcn g k0 t1 r. subst r.
  pose proof (advect_eulerian method interp 1 u c n cn dt Hm) as E.
  cbv zeta in E. fold g in E. rewrite E. clear E.
  cbn [Z.eqb Pos.eqb]. fold k0. fold t1.
  split; [| split; [| split]]; [intros i j Hij | intros i j Hij | intros i j Hij |].
  - destruct (in_x_flow_rect n i j Hij) as [R1 R2].
    destruct (add_stage_cells (add_stage (u, c) k0 (0.5 * dt) n cn)
      (advect_diff g method t1 (t1 2%Z) n cn (fresh_k n cn) dt) (0.5 * dt) n cn i j)
      as [A _].
    destruct (A R2) as [-> _].
    destruct (add_stage_cells (u, c) k0 (0.5 * dt) n cn i j) as [B _].
    destruct (B R2) as [-> _]. cbn [fst]. unfold k0.
    destruct (advect_diff_get g method u c n cn (fresh_k n cn) dt i j Hn Hcn) as [-> _].
    destruct (advect_diff_get g method t1 (t1 2%Z) n cn (fresh_k n cn) dt i j Hn Hcn)
      as [-> _].
    rewrite R1. ring.
  - destruct (in_y_flow_rect n i j Hij) as [R1 R2].
    destruct (add_stage_cells (add_stage (u, c) k0 (0.5 * dt) n cn)
      (advect_diff g method t1 (t1 2%Z) n cn (fresh_k n cn) dt) (0.5 * dt) n cn i j)
      as [A _].
    destruct (A R2) as [_ ->].
    destruct (add_stage_cells (u, c) k0 (0.5 * dt) n cn i j) as [B _].
    destruct (B R2) as [_ ->]. cbn [fst]. unfold k0.
    destruct (advect_diff_get g method u c n cn (fresh_k n cn) dt i j Hn Hcn)
      as [_ [-> _]].
    destruct (advect_diff_get g method t1 (t1 2%Z) n cn (fresh_k n cn) dt i j Hn Hcn)
      as [_ [-> _]].
    rewrite R1. ring.
  - pose proof (in_cells_rect cn i j Hij) as R.
    destruct (add_stage_cells (add_stage (u, c) k0 (0.5 * dt) n cn)
      (advect_diff g method t1 (t1 2%Z) n cn (fresh_k n cn) dt) (0.5 * dt) n cn i j)
      as [_ A].
    rewrite (A R).
    destruct (add_stage_cells (u, c) k0 (0.5 * dt) n cn i j) as [_ B].
    rewrite (B R). cbn [snd]. unfold k0.
    destruct (advect_diff_get g method u c n cn (fresh_k n cn) dt i j Hn Hcn)
      as [_ [_ ->]].
    destruct (advect_diff_get g method t1 (t1 2%Z) n cn (fresh_k n cn) dt i j Hn Hcn)
      as [_ [_ ->]].
    rewrite R. ring.
  - intros ua ca ca' out. reflexivity.
Qed.

Lemma modified_euler_cells_witness :
  let u : Field := fun k => grid_of [[1; 2; 3]; [0; 1; 5]; [2; 2; 1]] in
  let c := grid_of [[0; 1]; [3; 0]] in
  let g := entry_globals 0 u c 2 2 in
  let k0 := advect_diff g 0 u c 2 2 (fresh_k 2 2) (1 # 10) in
  let t1 := stage_state (fresh_k 2 2) u c k0 (1 # 10) 2 2 in
  (0 < 3)%Z /\ (1 <= 2)%Z /\ (1 <= 2)%Z
  /\ snd (advect 0 0 1 u c 2 2 (1 # 10)) 1%Z 0%Z
     == c 1%Z 0%Z + 0.5 * (1 # 10) * concentration_value g 0 u 2 2 1 0
        + 0.5 * (1 # 10) * concentration_value g 0 t1 2 2 1 0.
Proof.
  intros u c g k0 t1. split; [lia |]. split; [lia |]. split; [lia |].
  destruct (modified_euler_cells 0 0 u c 2 2 (1 # 10)) as [_ [_ [H _]]]; try lia.
  apply (H 1%Z 0%Z). unfold in_cells. lia.
Defined.

(** ** The Semi-Lagrangian step, cell by cell *)

(** X12.  With a method from 3 on other than 4, whatever the integrator,
    [advect] leaves in every cell the selected kernel's sample of the
    previous field at the cell's position moved back by [dt*n] times the
    velocity there: the component itself and the mean of the four
    neighbouring faces of the other component for a velocity cell, the
    kernel's sample of the cell-centred velocity for a concentration cell.
    The factor is the velocity resolution [n] for the concentration too. *)
Theorem semi_lagrangian_cells (method interp integrator : Z) (u : Field)
    (c : Grid) (n cn : Z) (dt : Q) :
  (3 <= method)%Z -> method <> 4%Z -> (1 <= n)%Z -> (1 <= cn)%Z ->
  let g := entry_globals interp u c n cn in
  let K := interp_func g in
  let up := cell_velocity u n in
  let r := advect method interp integrator u c n cn dt in
  (forall i j, in_x_flow n i j ->
     fst r 0%Z i j
     = K (u 0%Z) (n + 1)%Z n
         (inject_Z i - inject_Z n * u 0%Z i j * dt)
         (inject_Z j - inject_Z n
            * ((u_ref g 1 (i - 1) j + u_ref g 1 i j
                + u_ref g 1 (i - 1) (j + 1) + u_ref g 1 i (j + 1)) / 4) * dt))
  /\ (forall i j, in_y_flow n i j ->
     fst r 1%Z i j
     = K (u 1%Z) n (n + 1)%Z
         (inject_Z i - inject_Z n
            * ((u_ref g 0 i (j - 1) + u_ref g 0 i j
                + u_ref g 0 (i + 1) j + u_ref g 0 (i + 1) (j - 1)) / 4) * dt)
         (inject_Z j - inject_Z n * u 1%Z i j * dt))
  /\ (forall i j, in_cells cn i j ->
     snd r i j
     = K c cn cn
         (inject_Z i - inject_Z n
            * K (up 0%Z) n n (inject_Z (i * n) / inject_Z cn)
                (inject_Z (j * n) / inject_Z cn) * dt)
         (inject_Z j - inject_Z n
            * K (up 1%Z) n n (inject_Z (i * n) / inject_Z cn)
                (inject_Z (j * n) / inject_Z cn) * dt)).
Proof.
  intros Hm H4 Hn Hcn g K up r. subst r.
  rewrite advect_semi_family by assumption. cbv zeta. fold g.
  rewrite semi_outputs_order1 by assumption. cbn [fst snd].
  split; [| split]; intros i j Hij.
  - destruct (in_x_flow_rect n i j Hij) as [R1 R2].
    unfold fset, copy2D. simpl. rewrite R2, semiLagrangian_get, R1 by lia.
    rewrite !face_velocity_x_get, R1 by assumption. reflexivity.
  - destruct (in_y_flow_rect n i j Hij) as [R1 R2].
    unfold fset, copy2D. simpl. rewrite R2, semiLagrangian_get, R1 by lia.
    rewrite !face_velocity_y_get, R1 by assumption. reflexivity.
  - pose proof (in_cells_rect cn i j Hij) as R.
    unfold fset, copy2D. simpl. rewrite R, semiLagrangian_get, R by lia.
    rewrite !concentration_velocity_get, R by assumption. reflexivity.
Qed.

Lemma semi_lagrangian_cells_witness :
  let u : Field := fun k => grid_of [[1; 2; 3]; [0; 1; 5]; [2; 2; 1]] in
  let c := grid_of [[0; 1]; [3; 0]] in
  (3 <= 3)%Z /\ 3%Z <> 4%Z /\ (1 <= 2)%Z /\ (1 <= 2)%Z
  /\ fst (advect 3 0 0 u c 2 2 (1 # 10)) 0%Z 1%Z 1%Z
     = linear_interpolate (u 0%Z) (2 + 1) 2
         (inject_Z 1 - inject_Z 2 * u 0%Z 1%Z 1%Z * (1 # 10))
         (inject_Z 1 - inject_Z 2
            * ((u_ref (entry_globals 0 u c 2 2) 1 (1 - 1) 1
                + u_ref (entry_globals 0 u c 2 2) 1 1 1
                + u_ref (entry_globals 0 u c 2 2) 1 (1 - 1) (1 + 1)
                + u_ref (entry_globals 0 u c 2 2) 1 1 (1 + 1)) / 4) * (1 # 10)).
Proof.
  intros u c. split; [lia |]. split; [lia |]. split; [lia |]. split; [lia |].
  destruct (semi_lagrangian_cells 3 0 0 u c 2 2 (1 # 10)) as [H _]; try lia.
  apply (H 1%Z 1%Z). unfold in_x_flow. lia.
Defined.

(** X13.  Semi-Lagrangian advection with the spline kernel creates no new
    extremum: every value that [advect] leaves in a field lies between two
    values that the field held before the call, for any velocity and any
    [dt]. *)
Theorem spline_semi_lagrangian_no_new_extremum (integrator : Z) (u : Field)
    (c : Grid) (n cn : Z) (dt : Q) :
  (1 <= n)%Z -> (1 <= cn)%Z ->
  let r := advect 3 1 integrator u c n cn dt in
  (forall i j, in_x_flow n i j -> no_new_extremum (u 0%Z) (n + 1) n (fst r 0%Z i j))
  /\ (forall i j, in_y_flow n i j -> no_new_extremum (u 1%Z) n (n + 1) (fst r 1%Z i j))
  /\ (forall i j, in_cells cn i j -> no_new_extremum c cn cn (snd r i j)).
Proof.
  intros Hn Hcn r. subst r.
  rewrite advect_semi_family by lia. cbv zeta.
  rewrite semi_outputs_order1 by discriminate. cbn [fst snd].
  change (interp_func (entry_globals 1 u c n cn)) with spline_interpolate.
  split; [| split]; intros i j Hij.
  - destruct (in_x_flow_rect n i j Hij) as [R1 R2].
    unfold fset, copy2D. simpl. rewrite R2, semiLagrangian_get, R1 by lia.
    apply spline_no_new_extremum; lia.
  - destruct (in_y_flow_rect n i j Hij) as [R1 R2].
    unfold fset, copy2D. simpl. rewrite R2, semiLagrangian_get, R1 by lia.
    apply spline_no_new_extremum; lia.
  - pose proof (in_cells_rect cn i j Hij) as R.
    unfold fset, copy2D. simpl. rewrite R, semiLagrangian_get, R by lia.
    apply spline_no_new_extremum; lia.
Qed.

Lemma spline_semi_lagrangian_no_new_extremum_witness :
  let u : Field := fun k => grid_of [[1; 2; 3]; [0; 1; 5]; [2; 2; 1]] in
  let c := grid_of [[0; 1]; [3; 0]] in
  (1 <= 2)%Z /\ (1 <= 2)%Z
  /\ no_new_extremum c 2 2 (snd (advect 3 1 0 u c 2 2 (1 # 10)) 1%Z 0%Z).
Proof.
  intros u c. split; [lia |]. split; [lia |].
  destruct (spline_semi_lagrangian_no_new_extremum 0 u c 2 2 (1 # 10))
    as [_ [_ H]]; try lia.
  apply (H 1%Z 0%Z). unfold in_cells. lia.
Defined.

(** ** What a step writes *)

(** X14.  [advect_step] never changes [gu], [gc], [gn] or [gcn], and it
    changes [interp_func] for method 4 only, which leaves the spline kernel
    selected; the kernel chosen by the caller survives every other method. *)
Theorem advect_step_globals_effect (g : Globals) (method : Z) (u : Field)
    (c : Grid) (n cn : Z) (out : Field) (dt : Q) :
  let g' := fst (advect_step g method u c n cn out dt) in
  gu g' = gu g /\ gc g' = gc g /\ gn g' = gn g /\ gcn g' = gcn g
  /\ interp_func g' = if (method =? 4)%Z then spline_interpolate else interp_func g.
Proof.
  assert (E : fst (advect_step g method u c n cn out dt)
              = if (method =? 4)%Z then set_interp_func g spline_interpolate else g).
  { unfold advect_step, advect_semiLagrangian.
    destruct (Z.ltb_spec method 3) as [H | H].
    - destruct (Z.eqb_spec method 4); [lia | reflexivity].
    - destruct (Z.eqb_spec method 3) as [-> | H3]; [reflexivity |].
      destruct (Z.eqb_spec method 4); reflexivity. }
  cbv zeta. rewrite E. destruct (method =? 4)%Z; repeat split.
Qed.

Lemma advect_diff_other (g : Globals) (method : Z) (u : Field) (c : Grid)
    (n cn : Z) (out : Field) (dt : Q) (k : Z) :
  k <> 0%Z -> k <> 1%Z -> k <> 2%Z ->
  advect_diff g method u c n cn out dt k = out k.
Proof.
  intros K0 K1 K2. unfold advect_diff, FOR_EVERY_X_FLOW, FOR_EVERY_Y_FLOW,
    FOR_EVERY_CELL.
  rewrite (for_cells_frame (fun s : Field => s k)) by (intros; now fstore_grids).
  rewrite (for_cells_frame (fun s : Field => s k)) by (intros; now fstore_grids).
  now rewrite (for_cells_frame (fun s : Field => s k)) by (intros; now fstore_grids).
Qed.

(** X15.  Whatever the method, [advect_step] writes into [out[0]], [out[1]]
    and [out[2]] only, and there only inside the extent of the matching
    field: every cell outside [(n+1) x n], [n x (n+1)] and [cn x cn]
    keeps the value it had. *)
Theorem advect_step_writes_extents_only (g : Globals) (method : Z) (u : Field)
    (c : Grid) (n cn : Z) (out : Field) (dt : Q) :
  (1 <= n)%Z -> (1 <= cn)%Z ->
  let o := snd (advect_step g method u c n cn out dt) in
  (forall i j, in_rect (n + 1) n i j = false -> o 0%Z i j = out 0%Z i j)
  /\ (forall i j, in_rect n (n + 1) i j = false -> o 1%Z i j = out 1%Z i j)
  /\ (forall i j, in_rect cn cn i j = false -> o 2%Z i j = out 2%Z i j)
  /\ (forall k, k <> 0%Z -> k <> 1%Z -> k <> 2%Z -> o k = out k).
Proof.
  intros Hn Hcn o. subst o. unfold advect_step.
  destruct (Z.ltb_spec method 3) as [H | H]; cbn [snd].
  - split; [| split; [| split]].
    + intros i j R.
      destruct (advect_diff_get g method u c n cn out dt i j Hn Hcn) as [-> _].
      now rewrite R.
    + intros i j R.
      destruct (advect_diff_get g method u c n cn out dt i j Hn Hcn) as [_ [-> _]].
      now rewrite R.
    + intros i j R.
      destruct (advect_diff_get g method u c n cn out dt i j Hn Hcn) as [_ [_ ->]].
      now rewrite R.
    + intros k. apply advect_diff_other.
  - destruct (Z.eq_dec method 4) as [-> | H4].
    + rewrite semi_outputs_order2. cbv zeta. unfold fset.
      split; [| split; [| split]].
      * intros i j R. simpl. now rewrite maccormack_get, R by lia.
      * intros i j R. simpl. now rewrite maccormack_get, R by lia.
      * intros i j R. simpl. now rewrite maccormack_get, R by lia.
      * intros k K0 K1 K2. apply Z.eqb_neq in K0, K1, K2. now rewrite K0, K1, K2.
    + rewrite semi_outputs_order1 by assumption. unfold fset.
      split; [| split; [| split]].
      * intros i j R. simpl. now rewrite semiLagrangian_get, R by lia.
      * intros i j R. simpl. now rewrite semiLagrangian_get, R by lia.
      * intros i j R. simpl. now rewrite semiLagrangian_get, R by lia.
      * intros k K0 K1 K2. apply Z.eqb_neq in K0, K1, K2. now rewrite K0, K1, K2.
Qed.

Lemma advect_step_writes_extents_only_witness :
  let u : Field := fun k => grid_of [[1; 2; 3]; [0; 1; 5]; [2; 2; 1]] in
  let c := grid_of [[0; 1]; [3; 0]] in
  let out : Field := fun _ _ _ => 7 in
  (1 <= 2)%Z /\ (1 <= 2)%Z
  /\ snd (advect_step (entry_globals 0 u c 2 2) 4 u c 2 2 out (1 # 10)) 0%Z 1%Z 2%Z
     = 7.
Proof.
  intros u c out. split; [lia |]. split; [lia |].
  destruct (advect_step_writes_extents_only (entry_globals 0 u c 2 2) 4 u c 2 2 out
              (1 # 10)) as [H _]; try lia.
  apply (H 1%Z 2%Z). reflexivity.
Defined.
